(** * Mappificator: the lexical scanner, the type descriptor codec and the
      proguard ("official") mapping parser.

    Shallow embedding of
      - [mappificator/parsers/abstract_parser.py]  (class [AbstractParser])
      - [mappificator/mapping/official_mapping.py] ([parse_official],
        [validate_official])

    Python [str] is a list of characters (8-bit [ascii] here; the code only
    compares characters, and no proof counts them), a [dict] is an
    association list in insertion order (Python dicts iterate in insertion
    order, and [parse_official] depends on it when it inverts the class
    table), an exception is a value of [exn], and a [while] loop is a
    fixpoint on fuel whose exhaustion is the separate outcome [Diverge]. *)

From Stdlib Require Import List Ascii Bool Arith ZArith Lia.
From Stdlib Require String.
Import ListNotations.
Import String.StringSyntax.

Local Open Scope string_scope.
Local Open Scope list_scope.
Local Open Scope nat_scope.

(** ** Python values *)

Definition str := list ascii.

(** String literals are written as Rocq strings. *)
Coercion String.list_ascii_of_string : String.string >-> list.

(** The line feed, Python's ['\n']. *)
Definition LF : ascii := "010"%char.

(** Python's [==] on hashable values. *)
Class Eq (A : Type) := equal : A -> A -> bool.

#[export] Instance Eq_ascii : Eq ascii := Ascii.eqb.

Fixpoint list_equal {A} `{Eq A} (xs ys : list A) : bool :=
  match xs, ys with
  | [], [] => true
  | x :: xs', y :: ys' => equal x y && list_equal xs' ys'
  | _, _ => false
  end.

#[export] Instance Eq_list {A} `{Eq A} : Eq (list A) := list_equal.

#[export] Instance Eq_prod {A B} `{Eq A} `{Eq B} : Eq (A * B) :=
  fun p q => equal (fst p) (fst q) && equal (snd p) (snd q).

(** [s[i:j]] for non-negative [i] and [j]. *)
Definition slice (s : str) (i j : nat) : str := firstn (j - i) (skipn i s).

(** [s.startswith(prefix)] and [s.endswith(suffix)]. *)
Definition startswith (s prefix : str) : bool :=
  equal (firstn (length prefix) s) prefix.

Definition endswith (s suffix : str) : bool :=
  (length suffix <=? length s)
  && equal (skipn (length s - length suffix) s) suffix.

(** [s.replace(old, new)] for one-character [old] and [new]. *)
Definition replace (old new : ascii) (s : str) : str :=
  map (fun c => if equal c old then new else c) s.

(** [s.split(sep)] for a one-character separator: one more piece than there
    are separators. *)
Fixpoint split (sep : ascii) (s : str) : list str :=
  match s with
  | [] => [[]]
  | c :: t =>
      if equal c sep then [] :: split sep t
      else match split sep t with
           | h :: r => (c :: h) :: r
           | [] => [[c]]
           end
  end.

(** [''.join(pieces)]. *)
Definition join (pieces : list str) : str := concat pieces.

(** ** Exceptions and outcomes *)

Inductive exn : Type :=
| RuntimeError     (* raised by [AbstractParser.error] *)
| IndexError       (* [text[pointer]] past the end *)
| ValueError       (* invalid descriptor, tuple unpacking of the wrong size *)
| KeyError         (* [d[k]] with [k] absent *)
| AttributeError   (* a method called on [None] *)
| AssertionError.  (* a failed [assert] *)

Inductive result (A : Type) : Type :=
| Ok (a : A)
| Raise (e : exn)
| Diverge.

Arguments Ok {A} a.
Arguments Raise {A} e.
Arguments Diverge {A}.

Definition rbind {A B} (m : result A) (k : A -> result B) : result B :=
  match m with
  | Ok a => k a
  | Raise e => Raise e
  | Diverge => Diverge
  end.

Notation "x <~ m ;; k" := (rbind m (fun x => k))
  (at level 61, m at next level, right associativity).
Notation "' pat <~ m ;; k" := (rbind m (fun x => match x with pat => k end))
  (at level 61, pat pattern, m at next level, right associativity).

(** ** Dictionaries *)

Section Dict.
Context {K V : Type} `{Eq K}.

Definition dict := list (K * V).

Fixpoint dict_get (d : dict) (k : K) : option V :=
  match d with
  | [] => None
  | (k', v) :: t => if equal k' k then Some v else dict_get t k
  end.

(** [k in d] *)
Definition dict_contains (d : dict) (k : K) : bool :=
  match dict_get d k with Some _ => true | None => false end.

(** [d[k]] *)
Definition dict_getitem (d : dict) (k : K) : result V :=
  match dict_get d k with Some v => Ok v | None => Raise KeyError end.

(** [d[k] = v]: an existing key keeps its place, a new one goes last. *)
Fixpoint dict_set (d : dict) (k : K) (v : V) : dict :=
  match d with
  | [] => [(k, v)]
  | (k', v') :: t =>
      if equal k' k then (k', v) :: t else (k', v') :: dict_set t k v
  end.

Definition dict_keys (d : dict) : list K := map fst d.

(** [dict(pairs)] *)
Definition dict_of (pairs : list (K * V)) : dict :=
  fold_left (fun d kv => dict_set d (fst kv) (snd kv)) pairs [].
End Dict.

Arguments dict : clear implicits.

(** ** [AbstractParser] *)

Module AbstractParser.

Definition IDENTIFIER_CHARS : list ascii :=
  String.list_ascii_of_string
    "ABCDEFGHIJKLMNOPQRSTUVWXYZabcdefghijklmnopqrstuvwxyz0123456789/-_$;()[]<>.,".

Definition NUMERIC_CHARS : list ascii := String.list_ascii_of_string "0123456789".

Definition FIELD_DESCRIPTOR_NAMES : dict str str :=
  dict_of
    [ ("byte" : str, "B" : str); ("char" : str, "C" : str);
      ("double" : str, "D" : str); ("float" : str, "F" : str);
      ("int" : str, "I" : str); ("long" : str, "J" : str);
      ("short" : str, "S" : str); ("boolean" : str, "Z" : str);
      ("void" : str, "V" : str) ].

Definition FIELD_DESCRIPTOR_NAMES_INVERSE : dict str str :=
  dict_of (map (fun kv => (snd kv, fst kv)) FIELD_DESCRIPTOR_NAMES).

(** [c in chars] for a set of characters *)
Definition char_in (c : ascii) (chars : list ascii) : bool :=
  existsb (equal c) chars.

Record Parser : Type := mkParser { text : str; pointer : nat }.

(** A method of the parser: it reads and moves the cursor, and returns or
    raises. *)
Definition Scan (A : Type) : Type := Parser -> result (A * Parser).

Definition ret {A} (a : A) : Scan A := fun p => Ok (a, p).
Definition raise {A} (e : exn) : Scan A := fun _ => Raise e.
Definition diverge {A} : Scan A := fun _ => Diverge.
Definition bind {A B} (m : Scan A) (k : A -> Scan B) : Scan B :=
  fun p => match m p with
           | Ok (a, p') => k a p'
           | Raise e => Raise e
           | Diverge => Diverge
           end.
Notation "x <- m ;; k" := (bind m (fun x => k))
  (at level 61, m at next level, right associativity).
Notation "' pat <- m ;; k" := (bind m (fun x => match x with pat => k end))
  (at level 61, pat pattern, m at next level, right associativity).

(** [self.pointer += n] *)
Definition advance (n : nat) : Scan unit :=
  fun p => Ok (tt, mkParser (text p) (pointer p + n)).

Definition eof : Scan bool :=
  fun p => Ok (length (text p) <=? pointer p, p).

Definition next : Scan ascii :=
  fun p => match nth_error (text p) (pointer p) with
           | Some c => Ok (c, p)
           | None => Raise IndexError
           end.

Definition try_scan (expected : str) : Scan bool :=
  fun p =>
    let size := length expected in
    if length (text p) <? pointer p + size then Ok (false, p)
    else if equal (slice (text p) (pointer p) (pointer p + size)) expected
         then (_ <- advance size ;; ret true) p
         else Ok (false, p).

(** [error] prints its diagnostics and raises; the printed text is no part
    of the parser's state. *)
Definition error {A} : Scan A := raise RuntimeError.

Definition scan (expected : str) : Scan unit :=
  b <- try_scan expected ;;
  if b then ret tt else error.

Fixpoint scan_until_loop (fuel : nat) (end_ : str) (identifier : str)
  : Scan str :=
  match fuel with
  | 0 => diverge
  | S fuel' =>
      at_end <- eof ;;
      if at_end then ret identifier
      else
        found <- try_scan end_ ;;
        if found then ret (identifier ++ end_)
        else
          c <- next ;;
          _ <- advance 1 ;;
          scan_until_loop fuel' end_ (identifier ++ [c])
  end.

(** Fuel for a loop that moves the cursor on every round but its last:
    one round per remaining character, and one more to leave. *)
Definition rounds (p : Parser) : nat := S (length (text p) - pointer p).

Definition scan_until (end_ : str) : Scan str :=
  fun p => scan_until_loop (rounds p) end_ [] p.

(** When the loop ends at the end of the text the function falls off its
    body, and Python returns [None]. *)
Fixpoint scan_identifier_loop (fuel : nat) (chars : list ascii)
  (identifier : str) : Scan (option str) :=
  match fuel with
  | 0 => diverge
  | S fuel' =>
      at_end <- eof ;;
      if at_end then ret None
      else
        c <- next ;;
        if char_in c chars
        then _ <- advance 1 ;;
             scan_identifier_loop fuel' chars (identifier ++ [c])
        else ret (Some identifier)
  end.

Definition scan_identifier (chars : option (list ascii))
  : Scan (option str) :=
  let chars := match chars with
               | None => IDENTIFIER_CHARS
               | Some cs => cs
               end in
  fun p => scan_identifier_loop (rounds p) chars [] p.

(** The array levels of [convert_type_to_descriptor]: the state of the
    loop is [(name, desc)]. *)
Fixpoint array_levels (fuel : nat) (name desc : str) : result (str * str) :=
  match fuel with
  | 0 => Diverge
  | S fuel' =>
      if (2 <? length name)
         && equal (skipn (length name - 2) name) ("[]" : str)
      then array_levels fuel' (firstn (length name - 2) name)
                        (desc ++ ("[" : str))
      else Ok (name, desc)
  end.

Definition convert_type_to_descriptor (name : str) (remap : dict str str)
  : result str :=
  '(name, desc) <~ array_levels (S (length name)) name [] ;;
  if dict_contains FIELD_DESCRIPTOR_NAMES name
  then
    code <~ dict_getitem FIELD_DESCRIPTOR_NAMES name ;;
    Ok (desc ++ code)
  else
    name <~ (if dict_contains remap name
             then dict_getitem remap name
             else Ok name) ;;
    Ok (desc ++ ("L" : str) ++ name ++ (";" : str)).

(** [while name.startswith('['): name = name[1:]] *)
Fixpoint strip_array_prefix (name : str) : str :=
  match name with
  | c :: rest =>
      if startswith name ("[" : str) then strip_array_prefix rest else name
  | [] => name
  end.

Definition convert_descriptor_to_type (desc : str) (remap : dict str str)
  : result str :=
  let name := strip_array_prefix desc in
  if dict_contains FIELD_DESCRIPTOR_NAMES_INVERSE name
  then dict_getitem FIELD_DESCRIPTOR_NAMES_INVERSE name
  else if startswith name ("L" : str) && endswith name (";" : str)
  then
    let name := slice name 1 (length name - 1) in
    if dict_contains remap name then dict_getitem remap name else Ok name
  else Raise ValueError.

(** [while self.next() == '[': self.scan('['); identifier += '['] *)
Fixpoint scan_type_levels (fuel : nat) (identifier : str) : Scan str :=
  match fuel with
  | 0 => diverge
  | S fuel' =>
      c <- next ;;
      if equal c "["%char
      then _ <- scan ("[" : str) ;;
           scan_type_levels fuel' (identifier ++ ("[" : str))
      else ret identifier
  end.

Definition scan_type : Scan str :=
  identifier <- (fun p => scan_type_levels (rounds p) [] p) ;;
  c <- next ;;
  if equal c "L"%char
  then s <- scan_until (";" : str) ;;
       ret (identifier ++ s)
  else c' <- next ;;
       _ <- advance 1 ;;
       ret (identifier ++ [c']).

(** [while self.next() != ')': identifier += self.scan_type(); params += 1] *)
Fixpoint signature_params (fuel : nat) (identifier : str) (params : nat)
  : Scan (str * nat) :=
  match fuel with
  | 0 => diverge
  | S fuel' =>
      c <- next ;;
      if negb (equal c ")"%char)
      then t <- scan_type ;;
           signature_params fuel' (identifier ++ t) (params + 1)
      else ret (identifier, params)
  end.

Definition scan_java_method_signature : Scan (str * nat) :=
  _ <- scan ("(" : str) ;;
  '(identifier, params) <-
    (fun p => signature_params (rounds p) ("(" : str) 0 p) ;;
  _ <- scan (")" : str) ;;
  let identifier := identifier ++ (")" : str) in
  t <- scan_type ;;
  ret (identifier ++ t, params).

(** [s[i:j]] with Python's reading of negative and overlong indices. *)
Definition py_index (len : nat) (i : Z) : nat :=
  if (i <? 0)%Z then Z.to_nat (Z.max 0 (Z.of_nat len + i))
  else Nat.min len (Z.to_nat i).

Definition py_slice (s : str) (i j : Z) : str :=
  slice s (py_index (length s) i) (py_index (length s) j).

(** What [error] computes and prints before it raises [RuntimeError]: the
    line number, the excerpt around the cursor and the line of that number;
    [self.text.split('\n')[line_num]] raises when there is no such line. *)
Definition error_diagnostics (p : Parser) : result (nat * str * str) :=
  let line_num := count_occ ascii_dec (firstn (pointer p) (text p)) LF in
  let around :=
    py_slice (text p) (Z.of_nat (pointer p) - 3) (Z.of_nat (pointer p) + 3) in
  match nth_error (split LF (text p)) line_num with
  | Some line => Ok (line_num, around, line)
  | None => Raise IndexError
  end.

(** [while parser.next() != ')': params.append(parser.scan_type())] *)
Fixpoint decode_params (fuel : nat) (params : list str) : Scan (list str) :=
  match fuel with
  | 0 => diverge
  | S fuel' =>
      c <- next ;;
      if negb (equal c ")"%char)
      then t <- scan_type ;;
           decode_params fuel' (params ++ [t])
      else ret params
  end.

Definition decode_java_method_descriptor (desc : str)
  : result (str * list str) :=
  let parser := mkParser desc 0 in
  '(r, _) <~ (_ <- scan ("(" : str) ;;
              params <- (fun p => decode_params (rounds p) [] p) ;;
              _ <- scan (")" : str) ;;
              ret_type <- scan_type ;;
              ret (ret_type, params)) parser ;;
  Ok r.

End AbstractParser.

(** ** [official_mapping] *)

Module official_mapping.
Import AbstractParser.

(** [official_mapping.py] imports its scanner as [Parser] from
    [mappificator.util.parser]; the scanner class among the sources is
    [AbstractParser], with every method and constant [parse_official]
    calls, and stands for it here. *)

(** Modelled from the spec: the class [SourceMap] of
    [mappificator/util/source_map.py], which is not among the sources.
    Three mappings from an obfuscated key to a readable name; a new
    [SourceMap()] has all three empty. *)
Record SourceMap : Type := mkSourceMap {
  classes : dict str str;
  fields : dict (str * str) str;
  methods : dict (str * str * str) str
}.

Definition SourceMap_new : SourceMap := mkSourceMap [] [] [].

(** The key of [temp_methods]:
    [(notch_class, notch_member, member_type, tuple(params))]. *)
Definition TempKey : Type := str * str * str * list str.

(** The objects [parse_official] mutates while it scans. *)
Record Staging : Type := mkStaging {
  sources : SourceMap;
  temp_methods : dict TempKey str
}.

Definition set_class (st : Staging) (notch_class mojmap_class : str)
  : Staging :=
  let s := sources st in
  mkStaging
    (mkSourceMap (dict_set (classes s) notch_class mojmap_class)
                 (fields s) (methods s))
    (temp_methods st).

Definition set_field (st : Staging) (key : str * str) (mojmap_member : str)
  : Staging :=
  let s := sources st in
  mkStaging
    (mkSourceMap (classes s) (dict_set (fields s) key mojmap_member)
                 (methods s))
    (temp_methods st).

Definition set_temp_method (st : Staging) (key : TempKey)
  (mojmap_method : str) : Staging :=
  mkStaging (sources st) (dict_set (temp_methods st) key mojmap_method).

(** [parser.scan_identifier().replace('.', '/')]: on [None] the call of
    [replace] raises. *)
Definition scan_name : Scan str :=
  identifier <- scan_identifier None ;;
  match identifier with
  | Some s => ret (replace "." "/" s)
  | None => raise AttributeError
  end.

(** [while parser.try_scan('#'): parser.scan_until('\n')] *)
Fixpoint skip_comments_loop (fuel : nat) : Scan unit :=
  match fuel with
  | 0 => diverge
  | S fuel' =>
      b <- try_scan ("#" : str) ;;
      if b then _ <- scan_until [LF] ;; skip_comments_loop fuel'
      else ret tt
  end.

Definition skip_comments : Scan unit :=
  fun p => skip_comments_loop (rounds p) p.

(** The body of the loop over the member lines of a class, after the
    indent has been scanned. *)
Definition member_line (notch_class : str) (st : Staging) : Scan Staging :=
  c <- next ;;
  _ <- (if char_in c NUMERIC_CHARS
        then _ <- scan_until (":" : str) ;;
             _ <- scan_until (":" : str) ;;
             ret tt
        else ret tt) ;;
  member_type <- scan_name ;;
  _ <- scan (" " : str) ;;
  mojmap_member <- scan_name ;;
  _ <- scan (" -> " : str) ;;
  notch_member <- scan_name ;;
  _ <- scan [LF] ;;
  if endswith mojmap_member (")" : str)
  then
    match split "(" mojmap_member with
    | [mojmap_method; params] =>
        let params := firstn (length params - 1) params in
        let params := split "," params in
        let params := if equal params [[]] then [] else params in
        if negb (equal notch_member ("<clinit>" : str))
        then ret (set_temp_method st
                    (notch_class, notch_member, member_type, params)
                    mojmap_method)
        else ret st
    | _ => raise ValueError
    end
  else ret (set_field st (notch_class, notch_member) mojmap_member).

(** [while parser.try_scan('    '): ...] *)
Fixpoint members_loop (fuel : nat) (notch_class : str) (st : Staging)
  : Scan Staging :=
  match fuel with
  | 0 => diverge
  | S fuel' =>
      b <- try_scan ("    " : str) ;;
      if b
      then st' <- member_line notch_class st ;;
           members_loop fuel' notch_class st'
      else ret st
  end.

Definition members (notch_class : str) (st : Staging) : Scan Staging :=
  fun p => members_loop (rounds p) notch_class st p.

(** The body of the loop over the classes: the declaration line, then the
    member lines. *)
Definition class_block (st : Staging) : Scan Staging :=
  mojmap_class <- scan_name ;;
  _ <- scan (" -> " : str) ;;
  notch_class <- scan_name ;;
  _ <- scan ((":" : str) ++ [LF]) ;;
  members notch_class (set_class st notch_class mojmap_class).

(** [while not parser.eof(): ...] *)
Fixpoint classes_loop (fuel : nat) (st : Staging) : Scan Staging :=
  match fuel with
  | 0 => diverge
  | S fuel' =>
      at_end <- eof ;;
      if at_end then ret st
      else st' <- class_block st ;;
           classes_loop fuel' st'
  end.

Definition classes_pass (st : Staging) : Scan Staging :=
  fun p => classes_loop (rounds p) st p.

(** The first pass: the comment lines, then the classes. *)
Definition scan_official : Scan Staging :=
  _ <- skip_comments ;;
  classes_pass (mkStaging SourceMap_new []).

(** [for p in params: params_desc.append(...)] *)
Fixpoint convert_params (params : list str) (remap : dict str str)
  : result (list str) :=
  match params with
  | [] => Ok []
  | p :: ps =>
      d <~ convert_type_to_descriptor p remap ;;
      ds <~ convert_params ps remap ;;
      Ok (d :: ds)
  end.

(** The body of the loop over [temp_methods.items()]. *)
Definition resolve_method (mojmap_to_notch_classes : dict str str)
  (methods : dict (str * str * str) str) (item : TempKey * str)
  : result (dict (str * str * str) str) :=
  let '((notch_class, notch_method, return_type, params), mojmap_method) :=
    item in
  return_desc <~
    convert_type_to_descriptor return_type mojmap_to_notch_classes ;;
  params_desc <~ convert_params params mojmap_to_notch_classes ;;
  let method_desc :=
    ("(" : str) ++ join params_desc ++ (")" : str) ++ return_desc in
  Ok (dict_set methods (notch_class, notch_method, method_desc)
               mojmap_method).

Fixpoint resolve_methods (mojmap_to_notch_classes : dict str str)
  (items : list (TempKey * str)) (methods : dict (str * str * str) str)
  : result (dict (str * str * str) str) :=
  match items with
  | [] => Ok methods
  | item :: rest =>
      methods' <~ resolve_method mojmap_to_notch_classes methods item ;;
      resolve_methods mojmap_to_notch_classes rest methods'
  end.

(** The second pass: the inverse class table, then the descriptors. *)
Definition resolve (st : Staging) : result SourceMap :=
  let s := sources st in
  let mojmap_to_notch_classes : dict str str :=
    dict_of (map (fun kv => (snd kv, fst kv)) (classes s)) in
  methods' <~
    resolve_methods mojmap_to_notch_classes (temp_methods st) (methods s) ;;
  Ok (mkSourceMap (classes s) (fields s) methods').

Definition parse_official (text : str) : result SourceMap :=
  let parser := mkParser text 0 in
  '(st, _) <~ scan_official parser ;;
  resolve st.

(** A key of a [SourceMap], qualified by the mapping it comes from. *)
Inductive Key : Type :=
| ClassKey (k : str)
| FieldKey (k : str * str)
| MethodKey (k : str * str * str).

#[export] Instance Eq_Key : Eq Key :=
  fun a b =>
    match a, b with
    | ClassKey x, ClassKey y => equal x y
    | FieldKey x, FieldKey y => equal x y
    | MethodKey x, MethodKey y => equal x y
    | _, _ => false
    end.

(** Modelled from the spec: [SourceMap.keys], which is not among the
    sources: the combined key set of [classes], [fields] and [methods],
    each key qualified by its own category. *)
Definition keys (sm : SourceMap) : list Key :=
  map ClassKey (dict_keys (classes sm))
  ++ map FieldKey (dict_keys (fields sm))
  ++ map MethodKey (dict_keys (methods sm)).

Definition key_in (k : Key) (ks : list Key) : bool := existsb (equal k) ks.

(** Modelled from the spec: the comparison [compare_to] of two key sets,
    which is not among the sources; [right_only] holds the keys of the
    second set that are absent from the first. *)
Record Comparison : Type := mkComparison {
  left_only : list Key;
  right_only : list Key
}.

Definition compare_to (left right : list Key) : Comparison :=
  mkComparison (filter (fun k => negb (key_in k right)) left)
               (filter (fun k => negb (key_in k left)) right).

Definition is_empty (ks : list Key) : bool :=
  match ks with [] => true | _ :: _ => false end.

(** The two maps are objects the caller still holds: the function returns
    its outcome and the two maps as it leaves them. *)
Definition validate_official (client server : SourceMap)
  : result unit * (SourceMap * SourceMap) :=
  let official_client_v_server := compare_to (keys client) (keys server) in
  if is_empty (right_only official_client_v_server)
  then (Ok tt, (client, server))
  else (Raise AssertionError, (client, server)).

End official_mapping.

Import AbstractParser official_mapping.

(** ** The documents of the examples *)

Definition line (s : String.string) : str := (s : str) ++ [LF].

(** The example document of the specification. *)
Definition example_document : str :=
  line "a.Foo -> c:"
  ++ line "    int field -> f"
  ++ line "    void method() -> m".

(** A document with a licence line, line numbers, an array of a class of the
    document, a constructor and a static initializer. *)
Definition larger_document : str :=
  line "# licence"
  ++ line "a.Foo -> c:"
  ++ line "    1:2:java.lang.String get(int,a.Foo[]) -> g"
  ++ line "    3:3:void <init>() -> <init>"
  ++ line "    4:4:void <clinit>() -> <clinit>"
  ++ line "    int count -> n".

(** What [parse_official] makes of it. *)
Definition larger_source_map : SourceMap :=
  mkSourceMap
    [("c" : str, "a/Foo" : str)]
    [(("c" : str, "n" : str), "count" : str)]
    [(("c" : str, "g" : str, "(I[Lc;)Ljava/lang/String;" : str), "get" : str);
     (("c" : str, "<init>" : str, "()V" : str), "<init>" : str)].

(** * The vocabulary of the properties *)

(** [equal] decides equality. *)
Class EqLaws (A : Type) `{Eq A} : Prop :=
  equal_iff : forall x y : A, equal x y = true <-> x = y.

(** [lit] occurs in [text] at position [i]. *)
Definition occurs_at (text : str) (i : nat) (lit : str) : Prop :=
  exists pre post, text = pre ++ lit ++ post /\ length pre = i.

(** The first occurrence of [lit] in [text] at or after [from]. *)
Definition first_occurrence (text : str) (from : nat) (lit : str) (q : nat)
  : Prop :=
  from <= q /\ occurs_at text q lit
  /\ forall q', from <= q' < q -> ~ occurs_at text q' lit.

Definition no_occurrence (text : str) (from : nat) (lit : str) : Prop :=
  forall q, from <= q -> ~ occurs_at text q lit.

(** The nine primitive and void keywords with their codes, as the class
    attribute lists them. *)
Definition primitive_keywords : list str :=
  [ "byte" : str; "char" : str; "double" : str; "float" : str; "int" : str;
    "long" : str; "short" : str; "boolean" : str; "void" : str ].

Definition primitive_codes : list str :=
  [ "B" : str; "C" : str; "D" : str; "F" : str; "I" : str; "J" : str;
    "S" : str; "Z" : str; "V" : str ].

(** [remap[name]] when [name] is a key of [remap], [name] itself otherwise. *)
Definition remapped (remap : dict str str) (name : str) : str :=
  match dict_get remap name with Some n => n | None => name end.

(** [k] array suffixes, and the [k] array levels of a descriptor. *)
Definition array_suffix (k : nat) : str := concat (repeat ("[]" : str) k).

Definition array_prefix (k : nat) : str := repeat "["%char k.

(** The object wrapper [L<name>;]. *)
Definition object_descriptor (name : str) : str :=
  ("L" : str) ++ name ++ (";" : str).

(** [convert_descriptor_to_type(convert_type_to_descriptor(name, {}), {})] *)
Definition round_trip (name : str) : result str :=
  desc <~ convert_type_to_descriptor name [] ;;
  convert_descriptor_to_type desc [].

(** The separator normalization of the parser layer. *)
Definition normalize (name : str) : str := replace "." "/" name.

(** The cursor is inside the text or at its end. *)
Definition inside (p : Parser) : Prop := pointer p <= length (text p).

(** From [p] to [p'] the text is the same and the cursor has not gone back,
    nor past the end. *)
Definition moves (p p' : Parser) : Prop :=
  text p' = text p /\ pointer p <= pointer p' /\ inside p'.

(** [m] run from [p] does not diverge, and what it returns satisfies [Q]. *)
Definition sound {A} (m : Scan A) (p : Parser) (Q : A -> Parser -> Prop)
  : Prop :=
  m p <> Diverge /\ forall a p', m p = Ok (a, p') -> Q a p'.

(** The obfuscated name of a static initializer. *)
Definition clinit : str := "<clinit>".

(** What holds of the tables while the document is scanned: every class of
    a key has been declared, and no staged or resolved method is a static
    initializer. *)
Definition staged_ok (st : Staging) : Prop :=
  let s := sources st in
  (forall c f, In (c, f) (dict_keys (fields s)) ->
               In c (dict_keys (classes s)))
  /\ (forall c m d, In (c, m, d) (dict_keys (methods s)) ->
                    In c (dict_keys (classes s)) /\ m <> clinit)
  /\ (forall c m t ps, In (c, m, t, ps) (dict_keys (temp_methods st)) ->
                       In c (dict_keys (classes s)) /\ m <> clinit).

(** What the specification asks of a source map: every class of a key is
    declared, and no method is a static initializer. *)
Definition referentially_complete (sm : SourceMap) : Prop :=
  (forall c f, In (c, f) (dict_keys (fields sm)) ->
               In c (dict_keys (classes sm)))
  /\ (forall c m d, In (c, m, d) (dict_keys (methods sm)) ->
                    In c (dict_keys (classes sm))).

Definition without_clinit (sm : SourceMap) : Prop :=
  forall c m d, In (c, m, d) (dict_keys (methods sm)) -> m <> clinit.

(** A type descriptor as the JVM has it: array levels, then one of the nine
    codes or [L<name>;] with a name without [;]. *)
Inductive type_descriptor : str -> Prop :=
| type_descriptor_primitive (k : nat) (code : str) :
    In code primitive_codes -> type_descriptor (array_prefix k ++ code)
| type_descriptor_object (k : nat) (name : str) :
    ~ In ";"%char name ->
    type_descriptor (array_prefix k ++ object_descriptor name).

(** [(<params>)<ret>], as [parse_official] builds it. *)
Definition method_descriptor (params : list str) (ret : str) : str :=
  ("(" : str) ++ join params ++ (")" : str) ++ ret.

(** Whatever [m] run from [p] raises satisfies [E]. *)
Definition raises_only {A} (E : exn -> Prop) (m : Scan A) (p : Parser)
  : Prop :=
  forall e, m p = Raise e -> E e.

(** [s] is the text between the cursors of [p] and [p']. *)
Definition consumed (p : Parser) (s : str) (p' : Parser) : Prop :=
  moves p p' /\ s = slice (text p) (pointer p) (pointer p').

(** A comment line with its line feed, and a header of comment lines. *)
Definition comment_line (body : str) : str := ("#" : str) ++ body ++ [LF].

Definition header (bodies : list str) : str :=
  concat (map comment_line bodies).

(** ** The member lines a scan reads *)

(** A member line as [parse_official] reads it: the obfuscated name of the
    class it stands in, then its three tokens. *)
Record MemberLine : Type := mkMemberLine {
  line_class : str;
  line_type : str;
  line_name : str;
  line_notch : str
}.

(** The tokens of a member line, [member_type], [mojmap_member] and
    [notch_member]: what [member_line] scans before it files the line. *)
Definition member_tokens : Scan (str * str * str) :=
  c <- next ;;
  _ <- (if char_in c NUMERIC_CHARS
        then _ <- scan_until (":" : str) ;;
             _ <- scan_until (":" : str) ;;
             ret tt
        else ret tt) ;;
  member_type <- scan_name ;;
  _ <- scan (" " : str) ;;
  mojmap_member <- scan_name ;;
  _ <- scan (" -> " : str) ;;
  notch_member <- scan_name ;;
  _ <- scan [LF] ;;
  ret (member_type, mojmap_member, notch_member).

(** The method name and the parameter types of a readable name
    [name(type,...)], as [member_line] takes them apart; [None] when the
    name does not have exactly one [(], where the unpacking raises. *)
Definition method_parts (mojmap_member : str) : option (str * list str) :=
  match split "(" mojmap_member with
  | [mojmap_method; params] =>
      let params := firstn (length params - 1) params in
      let params := split "," params in
      let params := if equal params [[]] then [] else params in
      Some (mojmap_method, params)
  | _ => None
  end.

(** What [member_line] does with the tokens of a line. *)
Definition file_member (notch_class : str) (st : Staging)
  (tokens : str * str * str) : result Staging :=
  let '(member_type, mojmap_member, notch_member) := tokens in
  if endswith mojmap_member (")" : str)
  then
    match method_parts mojmap_member with
    | Some (mojmap_method, params) =>
        if negb (equal notch_member ("<clinit>" : str))
        then Ok (set_temp_method st
                   (notch_class, notch_member, member_type, params)
                   mojmap_method)
        else Ok st
    | None => Raise ValueError
    end
  else Ok (set_field st (notch_class, notch_member) mojmap_member).

Definition lift_result {A} (m : result A) : Scan A :=
  fun p => match m with
           | Ok a => Ok (a, p)
           | Raise e => Raise e
           | Diverge => Diverge
           end.

(** [member_line] with the line it has read. *)
Definition member_line_log (notch_class : str) (st : Staging)
  : Scan (Staging * MemberLine) :=
  tokens <- member_tokens ;;
  st' <- lift_result (file_member notch_class st tokens) ;;
  ret (st', mkMemberLine notch_class (fst (fst tokens)) (snd (fst tokens))
                         (snd tokens)).

(** The loops of the first pass with a log of the member lines, in the
    order they are read. Without the log they are the loops of
    [parse_official] (lemma [scan_official_log_erase]). *)
Fixpoint members_loop_log (fuel : nat) (notch_class : str) (st : Staging)
  (log : list MemberLine) : Scan (Staging * list MemberLine) :=
  match fuel with
  | 0 => diverge
  | S fuel' =>
      b <- try_scan ("    " : str) ;;
      if b
      then r <- member_line_log notch_class st ;;
           members_loop_log fuel' notch_class (fst r) (log ++ [snd r])
      else ret (st, log)
  end.

Definition members_log (notch_class : str) (st : Staging)
  (log : list MemberLine) : Scan (Staging * list MemberLine) :=
  fun p => members_loop_log (rounds p) notch_class st log p.

Definition class_block_log (st : Staging) (log : list MemberLine)
  : Scan (Staging * list MemberLine) :=
  mojmap_class <- scan_name ;;
  _ <- scan (" -> " : str) ;;
  notch_class <- scan_name ;;
  _ <- scan ((":" : str) ++ [LF]) ;;
  members_log notch_class (set_class st notch_class mojmap_class) log.

Fixpoint classes_loop_log (fuel : nat) (st : Staging)
  (log : list MemberLine) : Scan (Staging * list MemberLine) :=
  match fuel with
  | 0 => diverge
  | S fuel' =>
      at_end <- eof ;;
      if at_end then ret (st, log)
      else r <- class_block_log st log ;;
           classes_loop_log fuel' (fst r) (snd r)
  end.

Definition scan_official_log : Scan (Staging * list MemberLine) :=
  _ <- skip_comments ;;
  (fun p => classes_loop_log (rounds p) (mkStaging SourceMap_new []) [] p).

(** A scan with its log dropped. *)
Definition drop_log {A L} (m : Scan (A * L)) : Scan A :=
  fun p => match m p with
           | Ok ((a, _), p') => Ok (a, p')
           | Raise e => Raise e
           | Diverge => Diverge
           end.

(** The inverse class table of the second pass,
    [dict((mojmap, notch) for notch, mojmap in sources.classes.items())]. *)
Definition mojmap_to_notch (classes : dict str str) : dict str str :=
  dict_of (map (fun kv => (snd kv, fst kv)) classes).

(** The key under which a method line is staged. *)
Definition staged_key (l : MemberLine) (params : list str) : TempKey :=
  (line_class l, line_notch l, line_type l, params).

(** What holds of the staged methods and the log while the document is
    scanned: the staged keys are those of the method lines read so far whose
    obfuscated name is not [<clinit>], and no method is resolved yet. *)
Definition staged_from (st : Staging) (log : list MemberLine) : Prop :=
  methods (sources st) = []
  /\ (forall l,
         In l log -> endswith (line_name l) (")" : str) = true ->
         line_notch l <> clinit ->
         exists mojmap_method params,
           method_parts (line_name l) = Some (mojmap_method, params)
           /\ In (staged_key l params) (dict_keys (temp_methods st)))
  /\ (forall key,
         In key (dict_keys (temp_methods st)) ->
         exists l mojmap_method params,
           In l log /\ endswith (line_name l) (")" : str) = true
           /\ line_notch l <> clinit
           /\ method_parts (line_name l) = Some (mojmap_method, params)
           /\ key = staged_key l params).

(** * Properties *)

(** ** [equal] decides equality *)

#[export] Instance EqLaws_ascii : EqLaws ascii.
Proof. intros x y. apply Ascii.eqb_eq. Qed.

#[export] Instance EqLaws_list {A} `{EqLaws A} : EqLaws (list A).
Proof.
  intros xs. unfold equal, Eq_list.
  induction xs as [|x xs IH]; intros [|y ys]; simpl;
    try (split; [discriminate | congruence]); try tauto.
  rewrite andb_true_iff, IH, (equal_iff x y).
  split; [intros [-> ->]; reflexivity | intros E; inversion E; auto].
Qed.

#[export] Instance EqLaws_prod {A B} `{EqLaws A} `{EqLaws B} : EqLaws (A * B).
Proof.
  intros [a b] [c d]. unfold equal, Eq_prod. simpl.
  rewrite andb_true_iff, (equal_iff a c), (equal_iff b d).
  split; [intros [-> ->]; reflexivity | intros E; inversion E; auto].
Qed.

#[export] Instance EqLaws_Key : EqLaws Key.
Proof.
  intros [x|x|x] [y|y|y]; unfold equal, Eq_Key;
    try (split; [discriminate | congruence]);
    rewrite (equal_iff x y); split; congruence.
Qed.

Lemma equal_refl {A} `{EqLaws A} (x : A) : equal x x = true.
Proof. apply equal_iff. reflexivity. Qed.

Lemma equal_false_iff {A} `{EqLaws A} (x y : A) : equal x y = false <-> x <> y.
Proof.
  rewrite <- (equal_iff x y). destruct (equal x y); split; congruence.
Qed.

(** Case analysis on a test [equal x y], with the equation in the context. *)
Ltac case_equal x y :=
  let E := fresh "E" in
  destruct (equal x y) eqn:E;
  [apply equal_iff in E | apply equal_false_iff in E].

(** ** Slices *)

Lemma occurs_at_slice (text : str) (i : nat) (lit : str) :
  occurs_at text i lit <->
  i + length lit <= length text /\ slice text i (i + length lit) = lit.
Proof.
  unfold slice. replace (i + length lit - i) with (length lit) by lia. split.
  - intros (pre & post & -> & <-). split.
    + rewrite !length_app. lia.
    + rewrite skipn_app, skipn_all, Nat.sub_diag. simpl.
      rewrite firstn_app, firstn_all, Nat.sub_diag. simpl.
      apply app_nil_r.
  - intros [Hlen Heq].
    exists (firstn i text), (skipn (length lit) (skipn i text)). split.
    + rewrite <- Heq at 1. rewrite firstn_skipn. symmetry. apply firstn_skipn.
    + apply firstn_length_le. lia.
Qed.

Lemma skipn_nth_error {A} (l : list A) (i : nat) (x : A) :
  nth_error l i = Some x -> skipn i l = x :: skipn (S i) l.
Proof.
  revert i. induction l as [|y l IH]; intros [|i]; simpl; try discriminate.
  - intros [= ->]. reflexivity.
  - apply IH.
Qed.

(** ** [try_scan] *)

Lemma try_scan_cases (expected : str) (p : Parser) :
  (occurs_at (text p) (pointer p) expected /\
   try_scan expected p
   = Ok (true, mkParser (text p) (pointer p + length expected)))
  \/ (~ occurs_at (text p) (pointer p) expected /\
      try_scan expected p = Ok (false, p)).
Proof.
  unfold try_scan. rewrite occurs_at_slice.
  destruct (Nat.ltb_spec (length (text p)) (pointer p + length expected)).
  - right. split; [lia | reflexivity].
  - case_equal (slice (text p) (pointer p) (pointer p + length expected))
               expected.
    + left. split; [split; assumption | reflexivity].
    + right. split; [tauto | reflexivity].
Qed.

(** C9. If the literal occurs in the text exactly at the cursor, [try_scan]
    returns [True] and moves the cursor forward by the length of the
    literal; otherwise it returns [False] and leaves the parser, its cursor
    included, as it was. In both cases it returns, and the text is never
    changed. *)
Theorem try_scan_spec (expected : str) (p : Parser) :
  (occurs_at (text p) (pointer p) expected ->
   try_scan expected p
   = Ok (true, mkParser (text p) (pointer p + length expected)))
  /\ (~ occurs_at (text p) (pointer p) expected ->
      try_scan expected p = Ok (false, p)).
Proof.
  destruct (try_scan_cases expected p) as [[Hocc ->] | [Hno ->]]; split;
    intros; try reflexivity; contradiction.
Qed.

(** ** [scan_until] *)

Lemma first_occurrence_unique text from lit q1 q2 :
  first_occurrence text from lit q1 -> first_occurrence text from lit q2 ->
  q1 = q2.
Proof.
  intros (H1 & O1 & M1) (H2 & O2 & M2).
  destruct (Nat.lt_trichotomy q1 q2) as [L | [E | L]]; [|exact E|].
  - exfalso. apply (M2 q1); [lia | exact O1].
  - exfalso. apply (M1 q2); [lia | exact O2].
Qed.

Lemma occurs_at_in_text text q lit :
  occurs_at text q lit -> q + length lit <= length text.
Proof. intros H. apply occurs_at_slice in H. tauto. Qed.

Lemma slice_step (txt : str) (i j : nat) (c : ascii) :
  nth_error txt i = Some c -> i < j ->
  slice txt i j = c :: slice txt (S i) j.
Proof.
  intros Hc Hij. unfold slice. rewrite (skipn_nth_error _ _ _ Hc).
  replace (j - i) with (S (j - S i)) by lia. reflexivity.
Qed.

(** One round of the loop. *)
Lemma scan_until_loop_step fuel (end_ identifier : str) (p : Parser) :
  scan_until_loop (S fuel) end_ identifier p
  = if length (text p) <=? pointer p then Ok (identifier, p)
    else match try_scan end_ p with
         | Ok (true, p') => Ok (identifier ++ end_, p')
         | Ok (false, p') =>
             match nth_error (text p') (pointer p') with
             | Some c =>
                 scan_until_loop fuel end_ (identifier ++ [c])
                                 (mkParser (text p') (pointer p' + 1))
             | None => Raise IndexError
             end
         | Raise e => Raise e
         | Diverge => Diverge
         end.
Proof.
  cbn [scan_until_loop]. unfold bind, eof, ret, next, advance.
  destruct (length (text p) <=? pointer p); [reflexivity|].
  destruct (try_scan end_ p) as [[[|] p'] | |]; try reflexivity.
  destruct (nth_error (text p') (pointer p')); reflexivity.
Qed.

(** The outcome of the loop from any cursor inside the text, with fuel for
    the characters that remain. *)
Lemma scan_until_loop_spec (end_ : str) (txt : str) :
  forall fuel ptr identifier,
    ptr <= length txt -> length txt - ptr < fuel ->
    (exists q,
        first_occurrence txt ptr end_ q /\
        scan_until_loop fuel end_ identifier (mkParser txt ptr)
        = Ok (identifier ++ slice txt ptr (q + length end_),
              mkParser txt (q + length end_)))
    \/ (no_occurrence txt ptr end_ /\
        scan_until_loop fuel end_ identifier (mkParser txt ptr)
        = Ok (identifier ++ skipn ptr txt, mkParser txt (length txt))).
Proof.
  induction fuel as [|fuel IH]; intros ptr identifier Hptr Hfuel; [lia|].
  rewrite scan_until_loop_step. cbn [text pointer].
  destruct (Nat.leb_spec (length txt) ptr) as [Hend | Hin].
  - (* at the end of the text *)
    assert (ptr = length txt) as -> by lia.
    rewrite skipn_all, app_nil_r.
    destruct end_ as [|e end_].
    + left. exists (length txt). split.
      * split; [lia|]. split; [|intros; lia].
        exists txt, []. rewrite app_nil_r. auto.
      * unfold slice. rewrite skipn_all. simpl. rewrite firstn_nil.
        rewrite app_nil_r, Nat.add_0_r. reflexivity.
    + right. split; [|reflexivity].
      intros q Hq Hocc. apply occurs_at_in_text in Hocc. simpl in Hocc. lia.
  - destruct (try_scan_cases end_ (mkParser txt ptr)) as [[Hocc ->] | [Hno ->]];
      cbn [text pointer] in *.
    + (* the delimiter is at the cursor *)
      left. exists ptr. split.
      * split; [lia|]. split; [exact Hocc | intros; lia].
      * apply occurs_at_slice in Hocc as [_ ->]. reflexivity.
    + (* one character is consumed *)
      destruct (nth_error txt ptr) as [c|] eqn:Hc;
        [|apply nth_error_None in Hc; lia].
      replace (ptr + 1) with (S ptr) by lia.
      destruct (IH (S ptr) (identifier ++ [c])) as
        [(q & (Hq & Hocc & Hmin) & ->) | (Hnone & ->)]; try lia.
      * left. exists q. split.
        -- split; [lia|]. split; [exact Hocc|].
           intros q' Hq'. destruct (Nat.eq_dec q' ptr) as [-> | Hne].
           ++ exact Hno.
           ++ apply Hmin. lia.
        -- rewrite <- app_assoc. simpl.
           rewrite (slice_step txt ptr _ c Hc) by lia. reflexivity.
      * right. split.
        -- intros q Hq. destruct (Nat.eq_dec q ptr) as [-> | Hne].
           ++ exact Hno.
           ++ apply Hnone. lia.
        -- rewrite <- app_assoc. simpl.
           rewrite (skipn_nth_error _ _ _ Hc). reflexivity.
Qed.

(** C7. From a cursor inside the text (the parser keeps it there),
    [scan_until] returns: the loop never runs out of rounds and nothing is
    raised. If the delimiter occurs at or after the cursor, the cursor ends
    just past its first occurrence and the text from the old cursor through
    the delimiter is returned; if it never occurs, the cursor ends at the end
    of the text and the rest of the text is returned. *)
Theorem scan_until_spec (end_ : str) (p : Parser) :
  pointer p <= length (text p) ->
  (exists r, scan_until end_ p = Ok r)
  /\ (forall q, first_occurrence (text p) (pointer p) end_ q ->
      scan_until end_ p
      = Ok (slice (text p) (pointer p) (q + length end_),
            mkParser (text p) (q + length end_)))
  /\ (no_occurrence (text p) (pointer p) end_ ->
      scan_until end_ p
      = Ok (skipn (pointer p) (text p),
            mkParser (text p) (length (text p)))).
Proof.
  intros Hptr. destruct p as [txt ptr]. cbn [text pointer] in *.
  unfold scan_until, rounds. cbn [text pointer].
  destruct (scan_until_loop_spec end_ txt (S (length txt - ptr)) ptr [] Hptr)
    as [(q & Hq & E) | (Hnone & E)]; try lia; rewrite E; simpl.
  - split; [eauto|]. split.
    + intros q' Hq'. rewrite (first_occurrence_unique _ _ _ _ _ Hq' Hq).
      reflexivity.
    + intros Hnone. destruct Hq as (Hle & Hocc & _).
      exfalso. exact (Hnone q Hle Hocc).
  - split; [eauto|]. split.
    + intros q (Hle & Hocc & _). exfalso. exact (Hnone q Hle Hocc).
    + reflexivity.
Qed.

Lemma scan_until_spec_witness :
  scan_until (":" : str) (mkParser ("12:15:int" : str) 0)
  = Ok (("12:" : str), mkParser ("12:15:int" : str) 3).
Proof.
  refine (proj1 (proj2 (scan_until_spec (":" : str)
                          (mkParser ("12:15:int" : str) 0) _)) 2 _).
  - simpl. lia.
  - split; [simpl; lia|]. split.
    + exists ("12" : str), ("15:int" : str). split; reflexivity.
    + intros q' Hq' Hocc. apply occurs_at_slice in Hocc as [_ Hocc].
      simpl in Hq'.
      assert (q' = 0 \/ q' = 1) as [-> | ->] by lia; discriminate Hocc.
Defined.

(** ** Prefixes, suffixes and dictionaries *)

Lemma startswith_iff (s prefix : str) :
  startswith s prefix = true <-> exists post, s = prefix ++ post.
Proof.
  unfold startswith. rewrite equal_iff. split.
  - intros E. exists (skipn (length prefix) s).
    transitivity (firstn (length prefix) s ++ skipn (length prefix) s);
      [symmetry; apply firstn_skipn | rewrite E; reflexivity].
  - intros [post ->]. rewrite firstn_app, firstn_all, Nat.sub_diag.
    simpl. apply app_nil_r.
Qed.

Lemma endswith_iff (s suffix : str) :
  endswith s suffix = true <-> exists pre, s = pre ++ suffix.
Proof.
  unfold endswith. rewrite andb_true_iff, Nat.leb_le, equal_iff. split.
  - intros [Hlen E]. exists (firstn (length s - length suffix) s).
    transitivity (firstn (length s - length suffix) s
                  ++ skipn (length s - length suffix) s);
      [symmetry; apply firstn_skipn | rewrite E; reflexivity].
  - intros [pre ->]. rewrite length_app. split; [lia|].
    replace (length pre + length suffix - length suffix) with (length pre)
      by lia.
    rewrite skipn_app, skipn_all, Nat.sub_diag. reflexivity.
Qed.

Section DictFacts.
Context {K V : Type} `{EqLaws K}.

Lemma dict_get_In (d : dict K V) (k : K) (v : V) :
  dict_get d k = Some v -> In (k, v) d.
Proof.
  induction d as [|[k' v'] d IH]; simpl; [discriminate|].
  case_equal k' k.
  - intros [= ->]. left. congruence.
  - intros Hget. right. exact (IH Hget).
Qed.

Lemma dict_contains_keys (d : dict K V) (k : K) :
  dict_contains d k = true <-> In k (dict_keys d).
Proof.
  unfold dict_contains, dict_keys.
  induction d as [|[k' v'] d IH]; simpl.
  - split; [discriminate | tauto].
  - case_equal k' k.
    + split; auto.
    + rewrite IH. split; [auto | intros [E' | Hin]; [contradiction | exact Hin]].
Qed.

(** A key is in the dictionary after [d[k] = v] iff it is [k] or was
    there before. *)
Lemma dict_set_keys (d : dict K V) (k : K) (v : V) (k0 : K) :
  In k0 (dict_keys (dict_set d k v)) <-> k0 = k \/ In k0 (dict_keys d).
Proof.
  unfold dict_keys. induction d as [|[k' v'] d IH]; simpl.
  - intuition congruence.
  - case_equal k' k; simpl.
    + subst. intuition congruence.
    + rewrite IH. intuition congruence.
Qed.
End DictFacts.

(** ** The type descriptor codec *)

Lemma FIELD_DESCRIPTOR_NAMES_keys :
  dict_keys FIELD_DESCRIPTOR_NAMES = primitive_keywords.
Proof. reflexivity. Qed.

Lemma FIELD_DESCRIPTOR_NAMES_INVERSE_keys :
  dict_keys FIELD_DESCRIPTOR_NAMES_INVERSE = primitive_codes.
Proof. reflexivity. Qed.

(** The two tables are inverse to each other, and every code is one
    character. *)
Lemma primitive_code_of (name code : str) :
  dict_get FIELD_DESCRIPTOR_NAMES name = Some code ->
  dict_get FIELD_DESCRIPTOR_NAMES_INVERSE code = Some name
  /\ (exists c, code = [c] /\ c <> "["%char).
Proof.
  intros Hget. apply dict_get_In in Hget.
  repeat (destruct Hget as [[= <- <-] | Hget];
          [split; [reflexivity | eexists; split; [reflexivity | discriminate]]|]).
  destruct Hget.
Qed.

Lemma primitive_keyword_of (code name : str) :
  dict_get FIELD_DESCRIPTOR_NAMES_INVERSE code = Some name ->
  dict_get FIELD_DESCRIPTOR_NAMES name = Some code.
Proof.
  intros Hget. apply dict_get_In in Hget.
  repeat (destruct Hget as [[= <- <-] | Hget]; [reflexivity|]).
  destruct Hget.
Qed.

Lemma concat_repeat_S {A} (x : list A) (k : nat) :
  concat (repeat x (S k)) = concat (repeat x k) ++ x.
Proof.
  induction k as [|k IH]; simpl in *.
  - rewrite app_nil_r. reflexivity.
  - rewrite IH at 1. rewrite app_assoc. reflexivity.
Qed.

Lemma array_suffix_S (k : nat) :
  array_suffix (S k) = array_suffix k ++ ("[]" : str).
Proof. apply concat_repeat_S. Qed.

(** The array levels: [k] suffixes are stripped, each while more than two
    characters remained, and the loop stops at a base that has at most two
    characters or does not end in a suffix. *)
Lemma array_levels_spec :
  forall fuel (name desc : str),
    length name < fuel ->
    exists k base,
      array_levels fuel name desc = Ok (base, desc ++ array_prefix k)
      /\ name = base ++ array_suffix k
      /\ (k = 0 \/ base <> [])
      /\ (length base <= 2 \/ endswith base ("[]" : str) = false).
Proof.
  induction fuel as [|fuel IH]; intros name desc Hfuel; [lia|].
  cbn [array_levels].
  destruct (Nat.ltb_spec 2 (length name)) as [Hlong | Hshort]; cbn [andb].
  - case_equal (skipn (length name - 2) name) ("[]" : str).
    + destruct (IH (firstn (length name - 2) name) (desc ++ ("[" : str)))
        as (k & base & -> & Hname & Hbase & Hstop).
      { rewrite firstn_length_le; lia. }
      exists (S k), base. split; [|split; [|split]].
      * rewrite <- app_assoc. reflexivity.
      * rewrite array_suffix_S, app_assoc, <- Hname, <- E.
        symmetry. apply firstn_skipn.
      * right. destruct Hbase as [-> | Hne]; [|exact Hne].
        unfold array_suffix in Hname. simpl in Hname.
        rewrite app_nil_r in Hname. subst base. intros Hnil.
        apply (f_equal (@length ascii)) in Hnil.
        rewrite firstn_length_le in Hnil; simpl in Hnil; lia.
      * exact Hstop.
    + exists 0, name. unfold array_prefix, array_suffix. simpl.
      rewrite !app_nil_r. repeat split; auto.
      right. unfold endswith. apply andb_false_iff. right.
      apply equal_false_iff. exact E.
  - exists 0, name. unfold array_prefix, array_suffix. simpl.
    rewrite !app_nil_r. repeat split; auto.
Qed.

(** [convert_type_to_descriptor], by the shape of the name. *)
Lemma convert_type_to_descriptor_shape (name : str) (remap : dict str str) :
  exists k base,
    name = base ++ array_suffix k
    /\ (k = 0 \/ base <> [])
    /\ (length base <= 2 \/ endswith base ("[]" : str) = false)
    /\ convert_type_to_descriptor name remap
       = Ok (array_prefix k
             ++ match dict_get FIELD_DESCRIPTOR_NAMES base with
                | Some code => code
                | None => ("L" : str) ++ remapped remap base ++ (";" : str)
                end).
Proof.
  destruct (array_levels_spec (S (length name)) name []) as
    (k & base & Hlv & Hname & Hbase & Hstop); [lia|].
  exists k, base. repeat (split; [assumption|]).
  unfold convert_type_to_descriptor. rewrite Hlv. cbn [rbind app].
  unfold dict_contains, dict_getitem, remapped.
  destruct (dict_get FIELD_DESCRIPTOR_NAMES base); [reflexivity|].
  destruct (dict_get remap base); reflexivity.
Qed.

Lemma strip_array_prefix_spec (desc : str) :
  exists k,
    desc = array_prefix k ++ strip_array_prefix desc
    /\ startswith (strip_array_prefix desc) ("[" : str) = false.
Proof.
  induction desc as [|c desc IH].
  - exists 0. split; reflexivity.
  - cbn [strip_array_prefix].
    destruct (startswith (c :: desc) ("[" : str)) eqn:Hs.
    + destruct IH as (k & Hk & Hstop). exists (S k). split; [|exact Hstop].
      apply startswith_iff in Hs as [post Hs]. injection Hs as -> _.
      simpl. f_equal. exact Hk.
    + exists 0. split; [reflexivity | exact Hs].
Qed.

(** The descriptor is cut in one way only into array levels and a rest that
    does not start with a level. *)
Lemma array_prefix_unique (k1 k2 : nat) (r1 r2 : str) :
  array_prefix k1 ++ r1 = array_prefix k2 ++ r2 ->
  startswith r1 ("[" : str) = false -> startswith r2 ("[" : str) = false ->
  k1 = k2 /\ r1 = r2.
Proof.
  revert k2. induction k1 as [|k1 IH]; intros [|k2] E H1 H2;
    unfold array_prefix in E; cbn [repeat app] in E.
  - auto.
  - exfalso. assert (startswith r1 ("[" : str) = true) as Ht.
    { apply startswith_iff. eexists. exact E. }
    congruence.
  - exfalso. assert (startswith r2 ("[" : str) = true) as Ht.
    { apply startswith_iff. eexists. symmetry. exact E. }
    congruence.
  - injection E as E. destruct (IH k2 E H1 H2) as [-> ->]. auto.
Qed.

Lemma strip_array_prefix_app (k : nat) (rest : str) :
  startswith rest ("[" : str) = false ->
  strip_array_prefix (array_prefix k ++ rest) = rest.
Proof.
  intros Hrest.
  destruct (strip_array_prefix_spec (array_prefix k ++ rest)) as (k' & E & Hs).
  symmetry. exact (proj2 (array_prefix_unique _ _ _ _ E Hrest Hs)).
Qed.

Lemma object_descriptor_not_primitive (name : str) :
  ~ In (object_descriptor name) primitive_codes.
Proof.
  unfold object_descriptor, primitive_codes. simpl.
  intros Hin. repeat (destruct Hin as [Hin | Hin]; [discriminate Hin|]).
  exact Hin.
Qed.

Lemma object_descriptor_wrapped (name : str) :
  startswith (object_descriptor name) ("L" : str) = true
  /\ endswith (object_descriptor name) (";" : str) = true
  /\ slice (object_descriptor name) 1 (length (object_descriptor name) - 1)
     = name.
Proof.
  split; [|split].
  - apply startswith_iff. eexists. reflexivity.
  - apply endswith_iff. exists ("L"%char :: name). reflexivity.
  - unfold slice, object_descriptor. simpl. rewrite length_app. simpl.
    replace (length name + 1 - 0 - 1) with (length name) by lia.
    rewrite firstn_app, firstn_all, Nat.sub_diag. simpl. apply app_nil_r.
Qed.

Lemma wrapped_object_descriptor (s : str) :
  startswith s ("L" : str) = true -> endswith s (";" : str) = true ->
  exists name, s = object_descriptor name.
Proof.
  intros Hs He. apply startswith_iff in Hs as [post ->].
  apply endswith_iff in He as [pre He].
  destruct pre as [|c pre]; [discriminate He|].
  injection He as <- ->. exists pre. reflexivity.
Qed.

(** [convert_descriptor_to_type] on a descriptor that is already without
    array levels. *)
Lemma convert_stripped (rest : str) (remap : dict str str) :
  let r :=
    if dict_contains FIELD_DESCRIPTOR_NAMES_INVERSE rest
    then dict_getitem FIELD_DESCRIPTOR_NAMES_INVERSE rest
    else if startswith rest ("L" : str) && endswith rest (";" : str)
    then Ok (remapped remap (slice rest 1 (length rest - 1)))
    else Raise ValueError in
  forall k, startswith rest ("[" : str) = false ->
            convert_descriptor_to_type (array_prefix k ++ rest) remap = r.
Proof.
  intros r k Hrest. unfold convert_descriptor_to_type.
  rewrite (strip_array_prefix_app k rest Hrest). subst r.
  destruct (dict_contains FIELD_DESCRIPTOR_NAMES_INVERSE rest); [reflexivity|].
  destruct (startswith rest ("L" : str) && endswith rest (";" : str));
    [|reflexivity].
  unfold dict_contains, dict_getitem, remapped.
  destruct (dict_get remap _); reflexivity.
Qed.

(** C8. A descriptor is its array levels followed by a rest that does not
    start with a level. [convert_descriptor_to_type] raises exactly when the
    rest is neither one of the nine one-letter codes nor of the form
    [L<name>;], and what it raises is [ValueError]; on a rest [L<name>;] it
    returns [remap[name]] when [name] is a key of [remap] and [name]
    otherwise; on a code it returns the keyword of the code. *)
Theorem convert_descriptor_to_type_spec (desc : str) (remap : dict str str) :
  exists k rest,
    desc = array_prefix k ++ rest
    /\ startswith rest ("[" : str) = false
    /\ ((exists e, convert_descriptor_to_type desc remap = Raise e)
        <-> (~ In rest primitive_codes
             /\ ~ exists name, rest = object_descriptor name))
    /\ (forall e, convert_descriptor_to_type desc remap = Raise e ->
                  e = ValueError)
    /\ (forall name, rest = object_descriptor name ->
                     convert_descriptor_to_type desc remap
                     = Ok (remapped remap name))
    /\ (In rest primitive_codes ->
        exists keyword,
          dict_get FIELD_DESCRIPTOR_NAMES keyword = Some rest
          /\ convert_descriptor_to_type desc remap = Ok keyword).
Proof.
  destruct (strip_array_prefix_spec desc) as (k & Hdesc & Hstop).
  remember (strip_array_prefix desc) as rest eqn:Hrest. clear Hrest.
  exists k, rest.
  split; [exact Hdesc|]. split; [exact Hstop|].
  pose proof (convert_stripped rest remap k Hstop) as Hc.
  cbv zeta in Hc. rewrite <- Hdesc in Hc. rewrite Hc. clear Hc.
  destruct (dict_contains FIELD_DESCRIPTOR_NAMES_INVERSE rest) eqn:Hprim.
  - (* a primitive code *)
    pose proof Hprim as Hin. apply dict_contains_keys in Hin.
    rewrite FIELD_DESCRIPTOR_NAMES_INVERSE_keys in Hin.
    unfold dict_contains in Hprim. unfold dict_getitem.
    destruct (dict_get FIELD_DESCRIPTOR_NAMES_INVERSE rest) as [kw|] eqn:Hkw;
      [|discriminate].
    split; [|split; [|split]].
    + split; [intros [e He]; discriminate He | tauto].
    + discriminate.
    + intros name ->. exfalso.
      exact (object_descriptor_not_primitive name Hin).
    + exists kw. split; [apply primitive_keyword_of; exact Hkw | reflexivity].
  - assert (~ In rest primitive_codes) as Hnot.
    { rewrite <- FIELD_DESCRIPTOR_NAMES_INVERSE_keys, <- dict_contains_keys.
      congruence. }
    destruct (startswith rest ("L" : str)) eqn:HL;
      [destruct (endswith rest (";" : str)) eqn:Hsemi|]; cbn [andb].
    + (* an object *)
      destruct (wrapped_object_descriptor rest HL Hsemi) as [name Hname].
      split; [|split; [|split]].
      * split; [intros [e He]; discriminate He|].
        intros [_ Hno]. exfalso. apply Hno. eauto.
      * discriminate.
      * intros name' ->.
        destruct (object_descriptor_wrapped name') as (_ & _ & ->).
        reflexivity.
      * tauto.
    + split; [|split; [|split]].
      * split; [|eauto]. intros _. split; [exact Hnot|]. intros [name ->].
        destruct (object_descriptor_wrapped name) as (_ & He & _). congruence.
      * congruence.
      * intros name ->.
        destruct (object_descriptor_wrapped name) as (_ & He & _). congruence.
      * tauto.
    + split; [|split; [|split]].
      * split; [|eauto]. intros _. split; [exact Hnot|]. intros [name ->].
        destruct (object_descriptor_wrapped name) as (Hs & _ & _). congruence.
      * congruence.
      * intros name ->.
        destruct (object_descriptor_wrapped name) as (Hs & _ & _). congruence.
      * tauto.
Qed.

Lemma primitive_keyword_lookup (base : str) :
  In base primitive_keywords <->
  exists code, dict_get FIELD_DESCRIPTOR_NAMES base = Some code.
Proof.
  rewrite <- FIELD_DESCRIPTOR_NAMES_keys, <- dict_contains_keys.
  unfold dict_contains.
  destruct (dict_get FIELD_DESCRIPTOR_NAMES base) as [code|]; split.
  - eauto.
  - reflexivity.
  - discriminate.
  - intros [code Hc]. discriminate Hc.
Qed.

(** C10. [convert_type_to_descriptor] returns a descriptor for every name
    and every remap: nothing is raised and the loop over the array levels
    never runs out of rounds. The name is a base followed by [k] suffixes
    [[]], each stripped while more than two characters remained (so the base
    is not empty when a suffix was stripped, and it has at most two
    characters or does not end in [[]]); the descriptor is [k] levels [[]
    followed by the code of the base when the base is one of the nine
    keywords, and by [L<name>;] for every other base, the empty one too,
    where [<name>] is [remap[base]] when [base] is a key of [remap] and
    [base] otherwise. The two-character name [[]] is not stripped: its
    descriptor is the object descriptor of [[]], [L[];] when [[]] is no key
    of [remap]. *)
Theorem convert_type_to_descriptor_total (name : str) (remap : dict str str) :
  (exists k base desc,
      convert_type_to_descriptor name remap = Ok desc
      /\ name = base ++ array_suffix k
      /\ (k = 0 \/ base <> [])
      /\ (length base <= 2 \/ endswith base ("[]" : str) = false)
      /\ (~ In base primitive_keywords ->
          desc = array_prefix k ++ object_descriptor (remapped remap base))
      /\ (In base primitive_keywords ->
          exists code,
            dict_get FIELD_DESCRIPTOR_NAMES base = Some code
            /\ desc = array_prefix k ++ code))
  /\ convert_type_to_descriptor ("[]" : str) remap
     = Ok (object_descriptor (remapped remap ("[]" : str)))
  /\ (dict_contains remap ("[]" : str) = false ->
      convert_type_to_descriptor ("[]" : str) remap = Ok ("L[];" : str)).
Proof.
  split; [|split].
  - destruct (convert_type_to_descriptor_shape name remap) as
      (k & base & Hname & Hbase & Hstop & Hconv).
    exists k, base. eexists. split; [exact Hconv|].
    repeat (split; [assumption|]).
    destruct (dict_get FIELD_DESCRIPTOR_NAMES base) as [code|] eqn:Hcode.
    + split.
      * intros Hnot. exfalso. apply Hnot.
        apply primitive_keyword_lookup. eauto.
      * intros _. exists code. auto.
    + split.
      * reflexivity.
      * intros Hin. apply primitive_keyword_lookup in Hin as [code Hc].
        congruence.
  - unfold convert_type_to_descriptor, remapped, dict_contains, dict_getitem.
    simpl. destruct (dict_get remap _); reflexivity.
  - unfold convert_type_to_descriptor, dict_contains, dict_getitem.
    simpl. destruct (dict_get remap _); [discriminate | reflexivity].
Qed.

(** ** The round trip through the codec *)

(** C1, as it is stated, fails on an array type: the round trip of [int[]]
    is [int], which no separator normalization makes equal to [int[]]. *)
Lemma round_trip_drops_array_suffix :
  ~ (exists name', round_trip ("int[]" : str) = Ok name'
                   /\ normalize name' = normalize ("int[]" : str)).
Proof.
  intros (name' & Hrt & Hnorm). vm_compute in Hrt.
  injection Hrt as <-. vm_compute in Hnorm. discriminate Hnorm.
Qed.

(** C1, amended. For every name the round trip with empty remaps returns,
    and returns the base of the name: the name without the [k] suffixes [[]]
    that [convert_type_to_descriptor] strips (each while more than two
    characters remain). A name from which nothing is stripped is reproduced
    as it is, separators included. *)
Theorem round_trip_base (name : str) :
  exists k base,
    name = base ++ array_suffix k
    /\ (k = 0 \/ base <> [])
    /\ (length base <= 2 \/ endswith base ("[]" : str) = false)
    /\ round_trip name = Ok base
    /\ (k = 0 -> round_trip name = Ok name).
Proof.
  destruct (convert_type_to_descriptor_shape name []) as
    (k & base & Hname & Hbase & Hstop & Hconv).
  exists k, base. repeat (split; [assumption|]).
  assert (round_trip name = Ok base) as Hrt.
  { unfold round_trip. rewrite Hconv. cbn [rbind].
    destruct (dict_get FIELD_DESCRIPTOR_NAMES base) as [code|] eqn:Hcode.
    - destruct (primitive_code_of base code Hcode) as (Hinv & c & -> & Hc).
      rewrite (convert_stripped [c] [] k).
      + unfold dict_contains, dict_getitem. rewrite Hinv. reflexivity.
      + unfold startswith. apply equal_false_iff. simpl. congruence.
    - change (("L" : str) ++ remapped [] base ++ (";" : str))
        with (object_descriptor base).
      rewrite (convert_stripped (object_descriptor base) [] k) by reflexivity.
      destruct (dict_contains FIELD_DESCRIPTOR_NAMES_INVERSE
                  (object_descriptor base)) eqn:Hprim.
      + apply dict_contains_keys in Hprim.
        rewrite FIELD_DESCRIPTOR_NAMES_INVERSE_keys in Hprim.
        destruct (object_descriptor_not_primitive base Hprim).
      + destruct (object_descriptor_wrapped base) as (-> & -> & ->).
        reflexivity. }
  split; [exact Hrt|].
  intros ->. unfold array_suffix in Hname. simpl in Hname.
  rewrite app_nil_r in Hname. subst base. exact Hrt.
Qed.

(** ** [scan_identifier] *)

(** One round of the loop. *)
Lemma scan_identifier_loop_step fuel (chars : list ascii) (identifier : str)
  (p : Parser) :
  scan_identifier_loop (S fuel) chars identifier p
  = if length (text p) <=? pointer p then Ok (None, p)
    else match nth_error (text p) (pointer p) with
         | Some c =>
             if char_in c chars
             then scan_identifier_loop fuel chars (identifier ++ [c])
                    (mkParser (text p) (pointer p + 1))
             else Ok (Some identifier, p)
         | None => Raise IndexError
         end.
Proof.
  cbn [scan_identifier_loop]. unfold bind, eof, ret, next, advance.
  destruct (length (text p) <=? pointer p); [reflexivity|].
  destruct (nth_error (text p) (pointer p)) as [c|]; [|reflexivity].
  destruct (char_in c chars); reflexivity.
Qed.

(** The run of characters of the set from the cursor either stops before a
    character [c] at [q] that is not in the set, and the loop returns the
    run; or it reaches the end of the text, and the loop is left without a
    [return]. *)
Lemma scan_identifier_loop_spec (chars : list ascii) (txt : str) :
  forall fuel ptr identifier,
    ptr <= length txt -> length txt - ptr < fuel ->
    (exists q c,
        ptr <= q /\ nth_error txt q = Some c /\ char_in c chars = false
        /\ (forall i c', ptr <= i < q -> nth_error txt i = Some c' ->
                         char_in c' chars = true)
        /\ scan_identifier_loop fuel chars identifier (mkParser txt ptr)
           = Ok (Some (identifier ++ slice txt ptr q), mkParser txt q))
    \/ ((forall i c', ptr <= i -> nth_error txt i = Some c' ->
                      char_in c' chars = true)
        /\ scan_identifier_loop fuel chars identifier (mkParser txt ptr)
           = Ok (None, mkParser txt (length txt))).
Proof.
  induction fuel as [|fuel IH]; intros ptr identifier Hptr Hfuel; [lia|].
  rewrite scan_identifier_loop_step. cbn [text pointer].
  destruct (Nat.leb_spec (length txt) ptr) as [Hend | Hin].
  - right. assert (ptr = length txt) as -> by lia. split; [|reflexivity].
    intros i c' Hi Hnth.
    assert (nth_error txt i <> None) as Hlt by congruence.
    apply nth_error_Some in Hlt. lia.
  - destruct (nth_error txt ptr) as [c|] eqn:Hc;
      [|apply nth_error_None in Hc; lia].
    destruct (char_in c chars) eqn:Hin_set.
    + replace (ptr + 1) with (S ptr) by lia.
      destruct (IH (S ptr) (identifier ++ [c])) as
        [(q & c0 & Hq & Hc0 & Hout & Hrun & ->) | (Hrun & ->)]; try lia.
      * left. exists q, c0. repeat (split; [assumption || lia|]). split.
        -- intros i c' Hi Hnth. destruct (Nat.eq_dec i ptr) as [-> | Hne].
           ++ congruence.
           ++ apply (Hrun i c'); [lia | exact Hnth].
        -- rewrite <- app_assoc. simpl.
           rewrite (slice_step txt ptr q c Hc) by lia. reflexivity.
      * right. split; [|reflexivity].
        intros i c' Hi Hnth. destruct (Nat.eq_dec i ptr) as [-> | Hne].
        -- congruence.
        -- apply (Hrun i c'); [lia | exact Hnth].
    + left. exists ptr, c. repeat (split; [assumption || lia|]).
      unfold slice. rewrite Nat.sub_diag. simpl. rewrite app_nil_r.
      reflexivity.
Qed.

(** C5, on the code: when every character from the cursor to the end of
    the text is in the set, the loop ends at the end of the text and the
    function returns [None], not the run it has collected. On the text
    [abc] from its start the result is [None] with the cursor at 3, where
    the specification has the string [abc]; on the empty text it is [None],
    where the specification has the empty string; before a character that
    is not in the set the run is returned. *)
Theorem scan_identifier_None_at_end_of_text :
  scan_identifier None (mkParser ("abc" : str) 0)
  = Ok (None, mkParser ("abc" : str) 3)
  /\ scan_identifier None (mkParser [] 0) = Ok (None, mkParser [] 0)
  /\ scan_identifier None (mkParser ("abc " : str) 0)
     = Ok (Some ("abc" : str), mkParser ("abc " : str) 3).
Proof. repeat split; reflexivity. Qed.

(** ** Reasoning about scans *)

Lemma moves_refl (p : Parser) : inside p -> moves p p.
Proof. unfold moves. auto. Qed.

Lemma moves_trans (p1 p2 p3 : Parser) :
  moves p1 p2 -> moves p2 p3 -> moves p1 p3.
Proof.
  unfold moves. intros (T1 & L1 & I1) (T2 & L2 & I2).
  repeat split; [congruence | lia | exact I2].
Qed.

Lemma moves_inside (p p' : Parser) : moves p p' -> inside p'.
Proof. unfold moves. tauto. Qed.

Lemma sound_ret {A} (a : A) (p : Parser) (Q : A -> Parser -> Prop) :
  Q a p -> sound (ret a) p Q.
Proof.
  intros HQ. split; [discriminate|]. intros a' p' [= <- <-]. exact HQ.
Qed.

Lemma sound_raise {A} (e : exn) (p : Parser) (Q : A -> Parser -> Prop) :
  sound (raise e) p Q.
Proof. split; discriminate. Qed.

Lemma sound_bind {A B} (m : Scan A) (k : A -> Scan B) (p : Parser)
  (Q : A -> Parser -> Prop) (R : B -> Parser -> Prop) :
  sound m p Q -> (forall a p', Q a p' -> sound (k a) p' R) ->
  sound (bind m k) p R.
Proof.
  intros [Hdiv HQ] Hk. unfold sound, bind.
  destruct (m p) as [[a p'] | e |]; [|split; discriminate | congruence].
  exact (Hk a p' (HQ a p' eq_refl)).
Qed.

Lemma sound_weaken {A} (m : Scan A) (p : Parser)
  (Q Q' : A -> Parser -> Prop) :
  sound m p Q -> (forall a p', Q a p' -> Q' a p') -> sound m p Q'.
Proof. intros [Hdiv HQ] Himp. split; [exact Hdiv | eauto]. Qed.

(** The rule for a step in the middle of a scan that started at [p0]. *)
Lemma sound_seq {A B} (m : Scan A) (k : A -> Scan B) (p0 p : Parser)
  (Q : A -> Parser -> Prop) (R : B -> Parser -> Prop) :
  moves p0 p ->
  (inside p -> sound m p (fun a p' => moves p p' /\ Q a p')) ->
  (forall a p', moves p p' -> moves p0 p' -> Q a p' -> sound (k a) p' R) ->
  sound (bind m k) p R.
Proof.
  intros Hmv Hm Hk.
  apply sound_bind with (Q := fun a p' => moves p p' /\ Q a p').
  - apply Hm. exact (moves_inside _ _ Hmv).
  - intros a p' [Hmv' HQ].
    apply Hk; [exact Hmv' | exact (moves_trans _ _ _ Hmv Hmv') | exact HQ].
Qed.

Section ScannerSteps.
Variable p : Parser.
Hypothesis Hin : inside p.

Lemma eof_sound :
  sound eof p (fun b p' => moves p p' /\ p' = p
                           /\ (b = false -> pointer p < length (text p))).
Proof.
  apply sound_ret. split; [exact (moves_refl p Hin)|]. split; [reflexivity|].
  intros Hb. apply Nat.leb_gt in Hb. exact Hb.
Qed.

Lemma next_sound : sound next p (fun _ p' => moves p p' /\ p' = p).
Proof.
  unfold sound, next. destruct (nth_error (text p) (pointer p)) as [c|].
  - split; [discriminate|]. intros a p' [= _ <-].
    split; [exact (moves_refl p Hin) | reflexivity].
  - split; discriminate.
Qed.

Lemma try_scan_sound (expected : str) :
  sound (try_scan expected) p
    (fun b p' => moves p p'
                 /\ if b then pointer p' = pointer p + length expected
                    else p' = p).
Proof.
  unfold sound.
  destruct (try_scan_cases expected p) as [[Hocc ->] | [Hno ->]].
  - split; [discriminate|]. intros b p' [= <- <-].
    apply occurs_at_in_text in Hocc. unfold moves, inside.
    cbn [text pointer]. repeat split; lia.
  - split; [discriminate|]. intros b p' [= <- <-].
    split; [exact (moves_refl p Hin) | reflexivity].
Qed.

Lemma scan_sound (expected : str) :
  sound (scan expected) p
    (fun _ p' => moves p p' /\ pointer p' = pointer p + length expected).
Proof.
  unfold scan. eapply sound_bind; [apply try_scan_sound|].
  intros [|] p' [Hmv Hb]; cbv beta iota in *.
  - apply sound_ret. auto.
  - apply sound_raise.
Qed.

Lemma scan_until_sound (end_ : str) :
  sound (scan_until end_) p (fun _ p' => moves p p' /\ True).
Proof.
  unfold sound, scan_until, rounds. destruct p as [txt ptr].
  unfold inside in Hin. cbn [text pointer] in *.
  destruct (scan_until_loop_spec end_ txt (S (length txt - ptr)) ptr []
              Hin) as [(q & (Hq & Hocc & _) & ->) | (_ & ->)]; try lia.
  - split; [discriminate|]. intros a p' [= _ <-].
    apply occurs_at_in_text in Hocc. unfold moves, inside.
    cbn [text pointer]. repeat split; lia.
  - split; [discriminate|]. intros a p' [= _ <-].
    unfold moves, inside. cbn [text pointer]. repeat split; lia.
Qed.

Lemma scan_identifier_sound (chars : option (list ascii)) :
  sound (scan_identifier chars) p (fun _ p' => moves p p' /\ True).
Proof.
  unfold sound, scan_identifier, rounds. destruct p as [txt ptr].
  unfold inside in Hin. cbn [text pointer] in *.
  match goal with
  | |- context [scan_identifier_loop _ ?cs _ _] =>
      destruct (scan_identifier_loop_spec cs txt (S (length txt - ptr)) ptr
                  [] Hin)
      as [(q & c & Hq & Hc & _ & _ & ->) | (_ & ->)]; try lia
  end.
  - split; [discriminate|]. intros a p' [= _ <-].
    assert (nth_error txt q <> None) as Hlt by congruence.
    apply nth_error_Some in Hlt.
    unfold moves, inside. cbn [text pointer]. repeat split; lia.
  - split; [discriminate|]. intros a p' [= _ <-].
    unfold moves, inside. cbn [text pointer]. repeat split; lia.
Qed.

Lemma scan_name_sound :
  sound scan_name p (fun _ p' => moves p p' /\ True).
Proof.
  unfold scan_name. eapply sound_bind; [apply scan_identifier_sound|].
  intros [s|] p' [Hmv _]; cbv beta iota.
  - apply sound_ret. auto.
  - apply sound_raise.
Qed.
End ScannerSteps.

(** ** The first pass of [parse_official] *)

Lemma staged_ok_new : staged_ok (mkStaging SourceMap_new []).
Proof. repeat split; simpl in *; contradiction. Qed.

Lemma staged_ok_set_class (st : Staging) (notch_class mojmap_class : str) :
  staged_ok st ->
  staged_ok (set_class st notch_class mojmap_class)
  /\ In notch_class
        (dict_keys (classes (sources (set_class st notch_class mojmap_class)))).
Proof.
  intros (Hf & Hm & Ht). unfold staged_ok, set_class. cbn.
  split; [|apply dict_set_keys; auto].
  split; [|split].
  - intros c f Hin. apply dict_set_keys. right. exact (Hf c f Hin).
  - intros c m d Hin. destruct (Hm c m d Hin) as [Hc Hne].
    split; [apply dict_set_keys; auto | exact Hne].
  - intros c m t ps Hin. destruct (Ht c m t ps Hin) as [Hc Hne].
    split; [apply dict_set_keys; auto | exact Hne].
Qed.

Lemma staged_ok_set_field (st : Staging) (c f mojmap_member : str) :
  staged_ok st -> In c (dict_keys (classes (sources st))) ->
  staged_ok (set_field st (c, f) mojmap_member).
Proof.
  intros (Hf & Hm & Ht) Hc. unfold staged_ok, set_field. cbn.
  split; [|split; assumption].
  intros c' f' Hin. apply dict_set_keys in Hin as [[= -> ->] | Hin].
  - exact Hc.
  - exact (Hf c' f' Hin).
Qed.

Lemma staged_ok_set_temp_method (st : Staging) (c m t : str)
  (ps : list str) (mojmap_method : str) :
  staged_ok st -> In c (dict_keys (classes (sources st))) -> m <> clinit ->
  staged_ok (set_temp_method st (c, m, t, ps) mojmap_method).
Proof.
  intros (Hf & Hm & Ht) Hc Hne. unfold staged_ok, set_temp_method. cbn.
  split; [assumption|]. split; [assumption|].
  intros c' m' t' ps' Hin.
  apply dict_set_keys in Hin as [[= -> -> -> ->] | Hin].
  - auto.
  - exact (Ht c' m' t' ps' Hin).
Qed.

(** One step of a scan that started at [p0]: the step is sound by [lem],
    and the rest of the scan goes on from where the step ends. *)
Ltac scan_step lem :=
  lazymatch goal with
  | Hmv : moves ?p0 ?p |- sound (bind _ _) ?p _ =>
      eapply (sound_seq _ _ p0 p);
      [ exact Hmv
      | intros ?; apply lem; assumption
      | let Hprev := fresh "Hprev" in
        let HQ := fresh "HQ" in
        rename Hmv into Hprev; intros ? ? ? Hmv HQ; cbv beta in HQ ]
  end.

Lemma line_numbers_sound (c : ascii) (p : Parser) :
  inside p ->
  sound (if char_in c NUMERIC_CHARS
         then _ <- scan_until (":" : str) ;;
              _ <- scan_until (":" : str) ;;
              ret tt
         else ret tt) p (fun _ p' => moves p p' /\ True).
Proof.
  intros Hin. pose proof (moves_refl p Hin) as Hmv.
  destruct (char_in c NUMERIC_CHARS).
  - scan_step scan_until_sound. scan_step scan_until_sound.
    apply sound_ret. auto.
  - apply sound_ret. auto.
Qed.

Lemma member_line_sound (notch_class : str) (st : Staging) (p : Parser) :
  inside p -> staged_ok st ->
  In notch_class (dict_keys (classes (sources st))) ->
  sound (member_line notch_class st) p
    (fun st' p' => moves p p' /\ staged_ok st'
                   /\ classes (sources st') = classes (sources st)).
Proof.
  intros Hin Hok Hc. pose proof (moves_refl p Hin) as Hmv.
  unfold member_line.
  scan_step next_sound. scan_step line_numbers_sound.
  scan_step scan_name_sound. scan_step scan_sound.
  scan_step scan_name_sound. scan_step scan_sound.
  scan_step scan_name_sound. scan_step scan_sound.
  match goal with
  | |- context [endswith ?m _] => destruct (endswith m (")" : str))
  end.
  - match goal with
    | |- context [split ?c ?m] =>
        destruct (split c m) as [|mojmap_method [|params [|? ?]]]
    end; try apply sound_raise.
    match goal with
    | |- context [negb (equal ?m ?c)] => case_equal m c
    end; cbn [negb]; apply sound_ret.
    + auto.
    + split; [exact Hmv|]. split; [|reflexivity].
      apply staged_ok_set_temp_method; assumption.
  - apply sound_ret. split; [exact Hmv|]. split; [|reflexivity].
    apply staged_ok_set_field; assumption.
Qed.

Lemma members_loop_sound (notch_class : str) :
  forall fuel (st : Staging) (p : Parser),
    inside p -> length (text p) - pointer p < fuel -> staged_ok st ->
    In notch_class (dict_keys (classes (sources st))) ->
    sound (members_loop fuel notch_class st) p
      (fun st' p' => moves p p' /\ staged_ok st').
Proof.
  induction fuel as [|fuel IH]; intros st p Hin Hfuel Hok Hc; [lia|].
  pose proof (moves_refl p Hin) as Hmv. cbn [members_loop].
  scan_step try_scan_sound.
  match goal with b : bool |- _ => destruct b end.
  - match goal with
    | H : pointer _ = _ |- _ => simpl in H; rename H into Hadv
    end.
    match goal with
    | |- sound _ ?p1 _ =>
        eapply (sound_seq _ _ p1 p1);
        [ exact (moves_refl p1 (moves_inside _ _ Hmv))
        | intros Hin1; apply member_line_sound; assumption
        | intros st' p2 _ Hmv2 (Hok' & Hcls) ]
    end.
    eapply sound_weaken.
    + apply (IH st' p2); [exact (moves_inside _ _ Hmv2) | | exact Hok' |].
      * destruct Hmv as (T1 & L1 & I1), Hmv2 as (T2 & L2 & I2).
        unfold inside in *. rewrite T2, T1 in *. lia.
      * rewrite Hcls. exact Hc.
    + intros st'' p3 [Hmv3 Hok3]. split; [|exact Hok3].
      exact (moves_trans _ _ _ Hmv (moves_trans _ _ _ Hmv2 Hmv3)).
  - apply sound_ret. subst. auto.
Qed.

(** The cursor of [p'] is further on than the cursor of [p]. *)
Ltac cursors :=
  repeat match goal with
         | H : moves _ _ |- _ => destruct H as (? & ? & ?)
         end;
  unfold inside in *; simpl in *;
  repeat match goal with
         | H : text _ = text _ |- _ => rewrite H in *; clear H
         end;
  lia.

Lemma class_block_sound (st : Staging) (p : Parser) :
  inside p -> staged_ok st ->
  sound (class_block st) p
    (fun st' p' => moves p p' /\ pointer p < pointer p' /\ staged_ok st').
Proof.
  intros Hin Hok. pose proof (moves_refl p Hin) as Hmv. unfold class_block.
  scan_step scan_name_sound. scan_step scan_sound.
  scan_step scan_name_sound. scan_step scan_sound.
  match goal with
  | |- context [set_class st ?c ?m] =>
      destruct (staged_ok_set_class st c m Hok) as [Hok' Hc]
  end.
  unfold members. eapply sound_weaken.
  - apply members_loop_sound;
      [exact (moves_inside _ _ Hmv) | unfold rounds; lia | exact Hok'
      | exact Hc].
  - intros st1 p1 [Hmv1 Hok1]. split; [|split; [|exact Hok1]].
    + exact (moves_trans _ _ _ Hmv Hmv1).
    + cursors.
Qed.

Lemma classes_loop_sound :
  forall fuel (st : Staging) (p : Parser),
    inside p -> length (text p) - pointer p < fuel -> staged_ok st ->
    sound (classes_loop fuel st) p (fun st' p' => moves p p' /\ staged_ok st').
Proof.
  induction fuel as [|fuel IH]; intros st p Hin Hfuel Hok; [lia|].
  pose proof (moves_refl p Hin) as Hmv. cbn [classes_loop].
  scan_step eof_sound.
  match goal with H : _ = p /\ _ |- _ => destruct H as [-> Hmore] end.
  match goal with b : bool |- _ => destruct b end.
  - apply sound_ret. auto.
  - eapply sound_bind; [apply class_block_sound; assumption|].
    intros st' p1 (Hmv1 & Hlt & Hok'). eapply sound_weaken.
    + apply (IH st' p1); [exact (moves_inside _ _ Hmv1) | | exact Hok'].
      specialize (Hmore eq_refl). cursors.
    + intros st'' p2 [Hmv2 Hok'']. split; [|exact Hok''].
      exact (moves_trans _ _ _ Hmv1 Hmv2).
Qed.

Lemma skip_comments_loop_sound :
  forall fuel (p : Parser),
    inside p -> length (text p) - pointer p < fuel ->
    sound (skip_comments_loop fuel) p (fun _ p' => moves p p').
Proof.
  induction fuel as [|fuel IH]; intros p Hin Hfuel; [lia|].
  pose proof (moves_refl p Hin) as Hmv. cbn [skip_comments_loop].
  scan_step try_scan_sound.
  match goal with b : bool |- _ => destruct b end.
  - scan_step scan_until_sound. eapply sound_weaken.
    + apply IH; [exact (moves_inside _ _ Hmv)|]. cursors.
    + intros u p1 Hmv1. exact (moves_trans _ _ _ Hmv Hmv1).
  - apply sound_ret. subst. exact Hmv.
Qed.

Lemma scan_official_sound (p : Parser) :
  inside p -> sound scan_official p (fun st _ => staged_ok st).
Proof.
  intros Hin. unfold scan_official.
  eapply sound_bind.
  - unfold skip_comments. apply skip_comments_loop_sound;
      [exact Hin | unfold rounds; lia].
  - intros u p1 Hmv. unfold classes_pass. eapply sound_weaken.
    + apply classes_loop_sound;
        [exact (moves_inside _ _ Hmv) | unfold rounds; lia
        | exact staged_ok_new].
    + intros st p2 [_ Hok]. exact Hok.
Qed.

(** ** The second pass of [parse_official] *)

Lemma convert_type_to_descriptor_returns (name : str) (remap : dict str str) :
  exists desc, convert_type_to_descriptor name remap = Ok desc.
Proof.
  destruct (convert_type_to_descriptor_shape name remap) as
    (k & base & _ & _ & _ & Hconv).
  eauto.
Qed.

Lemma convert_params_returns (params : list str) (remap : dict str str) :
  exists descs, convert_params params remap = Ok descs.
Proof.
  induction params as [|p ps [ds IH]]; simpl.
  - eauto.
  - destruct (convert_type_to_descriptor_returns p remap) as [d ->].
    rewrite IH. simpl. eauto.
Qed.

(** Every method of the result is there already or comes from a staged
    method of the same class and the same obfuscated name. *)
Lemma resolve_methods_keys (remap : dict str str) :
  forall (items : list (TempKey * str)) (methods : dict (str * str * str) str),
  exists methods',
    resolve_methods remap items methods = Ok methods'
    /\ forall c m d,
        In (c, m, d) (dict_keys methods') ->
        In (c, m, d) (dict_keys methods)
        \/ exists t ps, In (c, m, t, ps) (dict_keys items).
Proof.
  induction items as [|[[[[c0 m0] t0] ps0] v0] items IH]; intros methods.
  - exists methods. split; [reflexivity | auto].
  - cbn [resolve_methods resolve_method].
    destruct (convert_type_to_descriptor_returns t0 remap) as [rd ->].
    destruct (convert_params_returns ps0 remap) as [pds ->].
    cbn [rbind].
    match goal with
    | |- context [resolve_methods remap items ?ms] =>
        destruct (IH ms) as (methods' & -> & Hkeys)
    end.
    exists methods'. split; [reflexivity|].
    intros c m d Hin. destruct (Hkeys c m d Hin) as [Hold | (t & ps & Hst)].
    + apply dict_set_keys in Hold as [[= -> -> ->] | Hold].
      * right. exists t0, ps0. left. reflexivity.
      * left. exact Hold.
    + right. exists t, ps. right. exact Hst.
Qed.

Lemma resolve_sound (st : Staging) :
  staged_ok st ->
  exists sm, resolve st = Ok sm
             /\ referentially_complete sm /\ without_clinit sm.
Proof.
  intros (Hf & Hm & Ht). unfold resolve.
  match goal with
  | |- context [resolve_methods ?r ?items ?ms] =>
      destruct (resolve_methods_keys r items ms) as (methods' & -> & Hkeys)
  end.
  eexists. split; [reflexivity|].
  unfold referentially_complete, without_clinit. cbn.
  split; [split|].
  - exact Hf.
  - intros c m d Hin. destruct (Hkeys c m d Hin) as [Hold | (t & ps & Hst)].
    + exact (proj1 (Hm c m d Hold)).
    + exact (proj1 (Ht c m t ps Hst)).
  - intros c m d Hin. destruct (Hkeys c m d Hin) as [Hold | (t & ps & Hst)].
    + exact (proj2 (Hm c m d Hold)).
    + exact (proj2 (Ht c m t ps Hst)).
Qed.

(** [parse_official] returns or raises on every text, and what it returns
    is referentially complete and without static initializers. *)
Lemma parse_official_sound (text : str) :
  parse_official text <> Diverge
  /\ forall sm, parse_official text = Ok sm ->
                referentially_complete sm /\ without_clinit sm.
Proof.
  unfold parse_official.
  destruct (scan_official_sound (mkParser text 0)) as [Hdiv Hok].
  { unfold inside. simpl. lia. }
  destruct (scan_official (mkParser text 0)) as [[st p'] | e |];
    cbn [rbind]; [|split; discriminate | congruence].
  destruct (resolve_sound st (Hok st p' eq_refl)) as (sm & -> & Hsm).
  split; [discriminate|]. intros sm' [= <-]. exact Hsm.
Qed.

(** On every text [parse_official] returns a source map or raises: none of
    its loops runs without end. *)
Theorem parse_official_terminates (text : str) :
  (exists sm, parse_official text = Ok sm)
  \/ (exists e, parse_official text = Raise e).
Proof.
  destruct (parse_official_sound text) as [Hdiv _].
  destruct (parse_official text) as [sm | e |]; [eauto | eauto | congruence].
Qed.

(** C2, as it is stated, fails: the readable class name is stored with its
    separators replaced, [a/Foo] and not [a.Foo]. *)
Lemma parse_official_example_class_name :
  ~ (exists sm,
        parse_official example_document = Ok sm
        /\ classes sm = [("c" : str, "a.Foo" : str)]
        /\ fields sm = [(("c" : str, "f" : str), "field" : str)]
        /\ methods sm
           = [(("c" : str, "m" : str, "()V" : str), "method" : str)]).
Proof.
  intros (sm & Hparse & Hcls & _). vm_compute in Hparse.
  injection Hparse as <-. discriminate Hcls.
Qed.

(** C2, amended. [parse_official] applied to the example document returns
    the source map whose classes are exactly [{c -> a/Foo}], whose fields
    are exactly [{(c, f) -> field}] and whose methods are exactly
    [{(c, m, ()V) -> method}]. *)
Theorem parse_official_example :
  parse_official example_document
  = Ok (mkSourceMap
          [("c" : str, "a/Foo" : str)]
          [(("c" : str, "f" : str), "field" : str)]
          [(("c" : str, "m" : str, "()V" : str), "method" : str)]).
Proof. vm_compute. reflexivity. Qed.

(** C3. For every text on which [parse_official] returns, the class of
    every key of the fields and of every key of the methods of the result is
    a key of its classes. *)
Theorem parse_official_referentially_complete (text : str) (sm : SourceMap) :
  parse_official text = Ok sm ->
  (forall c f, In (c, f) (dict_keys (fields sm)) ->
               In c (dict_keys (classes sm)))
  /\ (forall c m d, In (c, m, d) (dict_keys (methods sm)) ->
                    In c (dict_keys (classes sm))).
Proof.
  intros Hparse.
  exact (proj1 (proj2 (parse_official_sound text) sm Hparse)).
Qed.

Lemma parse_official_referentially_complete_witness :
  parse_official larger_document = Ok larger_source_map
  /\ (forall c f, In (c, f) (dict_keys (fields larger_source_map)) ->
                  In c (dict_keys (classes larger_source_map)))
  /\ (forall c m d, In (c, m, d) (dict_keys (methods larger_source_map)) ->
                    In c (dict_keys (classes larger_source_map))).
Proof.
  assert (parse_official larger_document = Ok larger_source_map) as Hparse
      by (vm_compute; reflexivity).
  split; [exact Hparse|].
  exact (parse_official_referentially_complete larger_document
           larger_source_map Hparse).
Defined.

(** The examples of the specification: a parameter of a class of the
    document is resolved to its obfuscated name, and a line number prefix
    changes nothing. *)
Example parse_official_resolves_descriptor :
  parse_official (line "a.Foo -> c:"
                  ++ line "    java.lang.String get(int,a.Foo) -> g")
  = Ok (mkSourceMap
          [("c" : str, "a/Foo" : str)] []
          [(("c" : str, "g" : str, "(ILc;)Ljava/lang/String;" : str),
            "get" : str)]).
Proof. vm_compute. reflexivity. Qed.

Example parse_official_ignores_line_numbers :
  parse_official (line "a.Foo -> c:" ++ line "    12:15:int count -> n")
  = parse_official (line "a.Foo -> c:" ++ line "    int count -> n").
Proof. vm_compute. reflexivity. Qed.

Example parse_official_larger_document :
  parse_official larger_document = Ok larger_source_map.
Proof. vm_compute. reflexivity. Qed.

(** A document that ends inside a class name: [scan_identifier] returns
    [None] and the call of [replace] raises, before [scan] can report the
    missing terminator through [error]. *)
Example parse_official_name_at_end_of_text :
  parse_official ("a.Foo -> c" : str) = Raise AttributeError.
Proof. vm_compute. reflexivity. Qed.

(** ** [validate_official] *)

Lemma key_in_iff (k : Key) (ks : list Key) : key_in k ks = true <-> In k ks.
Proof.
  unfold key_in. rewrite existsb_exists. split.
  - intros (k' & Hin & E). apply equal_iff in E. subst. exact Hin.
  - intros Hin. exists k. split; [exact Hin | apply equal_refl].
Qed.

Lemma right_only_empty (left right : list Key) :
  is_empty (right_only (compare_to left right)) = true
  <-> forall k, In k right -> In k left.
Proof.
  unfold compare_to. cbn [right_only].
  induction right as [|k right IH]; cbn [filter].
  - split; [intros _ k [] | reflexivity].
  - destruct (key_in k left) eqn:Hk; cbn [negb].
    + rewrite IH. apply key_in_iff in Hk. split.
      * intros Hall k' [<- | Hin]; auto.
      * intros Hall k' Hin. apply Hall. right. exact Hin.
    + split; [discriminate|]. intros Hall. exfalso.
      assert (key_in k left = true) as Ht
          by (apply key_in_iff, Hall; left; reflexivity).
      congruence.
Qed.

Lemma right_only_witness (left right : list Key) :
  is_empty (right_only (compare_to left right)) = false
  <-> exists k, In k right /\ ~ In k left.
Proof.
  unfold compare_to. cbn [right_only]. split.
  - destruct (filter _ right) as [|k rest] eqn:Hf; [discriminate|].
    intros _. exists k.
    assert (In k (filter (fun k => negb (key_in k left)) right)) as Hin
        by (rewrite Hf; left; reflexivity).
    apply filter_In in Hin as [Hin Hneg]. split; [exact Hin|].
    rewrite <- key_in_iff. destruct (key_in k left); [discriminate | congruence].
  - intros (k & Hin & Hnot).
    destruct (is_empty _) eqn:He; [|reflexivity]. exfalso. apply Hnot.
    exact (proj1 (right_only_empty left right) He k Hin).
Qed.

(** C4. With the key sets and their comparison as the specification has
    them, [validate_official] fails, with an [AssertionError], exactly when
    some key of the server's combined key set is absent from the client's;
    when every key of the server is a key of the client it returns; it has no
    other outcome, and it leaves both maps as they were. *)
Theorem validate_official_spec (client server : SourceMap) :
  (fst (validate_official client server) = Raise AssertionError
   <-> exists k, In k (keys server) /\ ~ In k (keys client))
  /\ ((forall k, In k (keys server) -> In k (keys client)) ->
      fst (validate_official client server) = Ok tt)
  /\ (fst (validate_official client server) = Ok tt
      \/ fst (validate_official client server) = Raise AssertionError)
  /\ snd (validate_official client server) = (client, server).
Proof.
  unfold validate_official.
  destruct (is_empty (right_only (compare_to (keys client) (keys server))))
    eqn:He; cbn [fst snd].
  - pose proof (proj1 (right_only_empty _ _) He) as Hall.
    split; [|auto]. split; [discriminate|].
    intros (k & Hin & Hnot). exfalso. exact (Hnot (Hall k Hin)).
  - pose proof (proj1 (right_only_witness _ _) He) as Hex.
    split; [|split; [|auto]].
    + split; [intros _; exact Hex | reflexivity].
    + intros Hall. exfalso. destruct Hex as (k & Hin & Hnot).
      exact (Hnot (Hall k Hin)).
Qed.

(** The example of the specification: a server with a class the client does
    not have fails the validation, and the other way round it passes. *)
Example validate_official_extra_class :
  let a := mkSourceMap [("c" : str, "a/B" : str)] [] [] in
  let b := mkSourceMap [("c" : str, "a/B" : str); ("d" : str, "a/D" : str)]
                       [] [] in
  fst (validate_official a b) = Raise AssertionError
  /\ fst (validate_official b a) = Ok tt.
Proof. split; reflexivity. Qed.

(** * Further properties of the scanner and the codec *)

(** ** [scan] *)

(** X1. [scan] moves the cursor past the literal when the literal is at the
    cursor, and raises [RuntimeError] through [error] otherwise. *)
Theorem scan_spec (expected : str) (p : Parser) :
  (occurs_at (text p) (pointer p) expected ->
   scan expected p
   = Ok (tt, mkParser (text p) (pointer p + length expected)))
  /\ (~ occurs_at (text p) (pointer p) expected ->
      scan expected p = Raise RuntimeError).
Proof.
  unfold scan, bind.
  destruct (try_scan_cases expected p) as [[Hocc ->] | [Hno ->]]; split;
    intros; try reflexivity; contradiction.
Qed.

(** ** [scan_identifier] *)

(** X2. From a cursor inside the text, [scan_identifier] either finds a
    first character [c] at [q] that is not in the set, and returns the
    characters from the cursor up to [q] with the cursor at [q]; or every
    remaining character is in the set, and it returns [None] with the cursor
    at the end of the text. *)
Theorem scan_identifier_run (chars : option (list ascii)) (p : Parser) :
  inside p ->
  (exists q c,
      pointer p <= q /\ nth_error (text p) q = Some c
      /\ char_in c (match chars with
                    | None => IDENTIFIER_CHARS
                    | Some cs => cs
                    end) = false
      /\ (forall i c', pointer p <= i < q -> nth_error (text p) i = Some c' ->
                       char_in c' (match chars with
                                   | None => IDENTIFIER_CHARS
                                   | Some cs => cs
                                   end) = true)
      /\ scan_identifier chars p
         = Ok (Some (slice (text p) (pointer p) q), mkParser (text p) q))
  \/ ((forall i c', pointer p <= i -> nth_error (text p) i = Some c' ->
                    char_in c' (match chars with
                                | None => IDENTIFIER_CHARS
                                | Some cs => cs
                                end) = true)
      /\ scan_identifier chars p
         = Ok (None, mkParser (text p) (length (text p)))).
Proof.
  intros Hin. destruct p as [txt ptr]. unfold inside in Hin.
  unfold scan_identifier, rounds. cbn [text pointer] in *.
  apply (scan_identifier_loop_spec _ txt (S (length txt - ptr)) ptr [] Hin).
  lia.
Qed.

Lemma scan_identifier_run_witness :
  scan_identifier None (mkParser ("a.Foo -> c" : str) 0)
  = Ok (Some ("a.Foo" : str), mkParser ("a.Foo -> c" : str) 5).
Proof.
  destruct (scan_identifier_run None (mkParser ("a.Foo -> c" : str) 0))
    as [(q & c & _ & _ & _ & _ & E) | (_ & E)].
  - unfold inside. simpl. lia.
  - vm_compute. reflexivity.
  - vm_compute. reflexivity.
Defined.

(** ** The codec with remaps *)

(** X3. The table of codes is the table of keywords read the other way:
    inverting it loses no entry, since the nine codes are distinct. *)
Theorem FIELD_DESCRIPTOR_NAMES_inverse (name code : str) :
  dict_get FIELD_DESCRIPTOR_NAMES name = Some code
  <-> dict_get FIELD_DESCRIPTOR_NAMES_INVERSE code = Some name.
Proof.
  split.
  - intros Hget. exact (proj1 (primitive_code_of name code Hget)).
  - apply primitive_keyword_of.
Qed.

(** The descriptor of a base without array levels. *)
Lemma convert_descriptor_of_body (k : nat) (base : str)
  (remap remap' : dict str str) :
  convert_descriptor_to_type
    (array_prefix k
     ++ match dict_get FIELD_DESCRIPTOR_NAMES base with
        | Some code => code
        | None => object_descriptor (remapped remap base)
        end) remap'
  = Ok (match dict_get FIELD_DESCRIPTOR_NAMES base with
        | Some _ => base
        | None => remapped remap' (remapped remap base)
        end).
Proof.
  destruct (dict_get FIELD_DESCRIPTOR_NAMES base) as [code|] eqn:Hcode.
  - destruct (primitive_code_of base code Hcode) as (Hinv & c & -> & Hc).
    rewrite (convert_stripped [c] remap' k).
    + unfold dict_contains, dict_getitem. rewrite Hinv. reflexivity.
    + unfold startswith. apply equal_false_iff. simpl. congruence.
  - rewrite (convert_stripped (object_descriptor (remapped remap base))
               remap' k) by reflexivity.
    destruct (dict_contains FIELD_DESCRIPTOR_NAMES_INVERSE
                (object_descriptor (remapped remap base))) eqn:Hprim.
    + apply dict_contains_keys in Hprim.
      rewrite FIELD_DESCRIPTOR_NAMES_INVERSE_keys in Hprim.
      destruct (object_descriptor_not_primitive _ Hprim).
    + destruct (object_descriptor_wrapped (remapped remap base))
        as (-> & -> & ->).
      reflexivity.
Qed.

(** X4. Encoding a name with one remap and decoding the descriptor with
    another returns: a keyword base comes back as it is, and any other base
    comes back looked up in the first remap and then in the second; the
    array suffixes are dropped. When the second remap takes the encoded
    name back to the base, the base is what comes back. *)
Theorem convert_there_and_back (name : str) (remap remap' : dict str str) :
  exists k base desc,
    name = base ++ array_suffix k
    /\ (k = 0 \/ base <> [])
    /\ (length base <= 2 \/ endswith base ("[]" : str) = false)
    /\ convert_type_to_descriptor name remap = Ok desc
    /\ (In base primitive_keywords ->
        convert_descriptor_to_type desc remap' = Ok base)
    /\ (~ In base primitive_keywords ->
        convert_descriptor_to_type desc remap'
        = Ok (remapped remap' (remapped remap base)))
    /\ (remapped remap' (remapped remap base) = base ->
        convert_descriptor_to_type desc remap' = Ok base).
Proof.
  destruct (convert_type_to_descriptor_shape name remap) as
    (k & base & Hname & Hbase & Hstop & Hconv).
  exists k, base. eexists. repeat (split; [eassumption|]).
  change (("L" : str) ++ remapped remap base ++ (";" : str))
    with (object_descriptor (remapped remap base)).
  rewrite (convert_descriptor_of_body k base remap remap').
  destruct (dict_get FIELD_DESCRIPTOR_NAMES base) as [code|] eqn:Hcode.
  - split; [reflexivity|]. split; [|reflexivity].
    intros Hnot. exfalso. apply Hnot, primitive_keyword_lookup. eauto.
  - split; [|split; [reflexivity | intros E; rewrite E; reflexivity]].
    intros Hin. apply primitive_keyword_lookup in Hin as [code Hc].
    congruence.
Qed.

Lemma Ok_injective {A} (a b : A) : Ok a = Ok b -> a = b.
Proof. intros [= E]. exact E. Qed.

(** X5. With the empty remap no two names have the same descriptor. *)
Theorem convert_type_to_descriptor_injective (name1 name2 : str) :
  convert_type_to_descriptor name1 [] = convert_type_to_descriptor name2 [] ->
  name1 = name2.
Proof.
  destruct (convert_type_to_descriptor_shape name1 []) as
    (k1 & base1 & Hname1 & _ & _ & Hconv1).
  destruct (convert_type_to_descriptor_shape name2 []) as
    (k2 & base2 & Hname2 & _ & _ & Hconv2).
  rewrite Hconv1, Hconv2. intros Hdesc. apply Ok_injective in Hdesc.
  change (("L" : str) ++ remapped [] base1 ++ (";" : str))
    with (object_descriptor (remapped [] base1)) in Hdesc.
  change (("L" : str) ++ remapped [] base2 ++ (";" : str))
    with (object_descriptor (remapped [] base2)) in Hdesc.
  pose proof (convert_descriptor_of_body k1 base1 [] []) as H1.
  pose proof (convert_descriptor_of_body k2 base2 [] []) as H2.
  rewrite Hdesc in H1. rewrite H1 in H2. clear H1.
  assert (base1 = base2) as Hb.
  { destruct (dict_get FIELD_DESCRIPTOR_NAMES base1),
             (dict_get FIELD_DESCRIPTOR_NAMES base2);
      unfold remapped in H2; simpl in H2; congruence. }
  subst base2.
  assert (k1 = k2) as ->.
  { apply (f_equal (@length ascii)) in Hdesc.
    unfold array_prefix in Hdesc.
    rewrite !length_app, !repeat_length in Hdesc. lia. }
  congruence.
Qed.

Lemma convert_type_to_descriptor_injective_witness :
  ("a.Foo[]" : str) = ("a.Foo[]" : str).
Proof.
  apply (convert_type_to_descriptor_injective ("a.Foo[]" : str)
           ("a.Foo[]" : str)).
  reflexivity.
Defined.

(** ** [scan_type] *)

Lemma occurs_at_char (txt : str) (q : nat) (d : ascii) :
  occurs_at txt q [d] <-> nth_error txt q = Some d.
Proof.
  split.
  - intros (pre & post & -> & <-).
    rewrite nth_error_app2, Nat.sub_diag by lia. reflexivity.
  - intros Hnth. apply nth_error_split in Hnth as (l1 & l2 & -> & <-).
    exists l1, l2. split; reflexivity.
Qed.

Lemma nth_error_after (pre rest : str) :
  nth_error (pre ++ rest) (length pre) = nth_error rest 0.
Proof. rewrite nth_error_app2, Nat.sub_diag by lia. reflexivity. Qed.

Lemma next_after (pre : str) (c : ascii) (rest : str) :
  next (mkParser (pre ++ c :: rest) (length pre))
  = Ok (c, mkParser (pre ++ c :: rest) (length pre)).
Proof. unfold next. cbn [text pointer]. rewrite nth_error_after. reflexivity. Qed.

Lemma next_at_end (pre : str) :
  next (mkParser pre (length pre)) = Raise IndexError.
Proof.
  unfold next. cbn [text pointer].
  rewrite (proj2 (nth_error_None pre (length pre))) by lia. reflexivity.
Qed.

Lemma scan_char_after (pre : str) (c : ascii) (rest : str) :
  scan [c] (mkParser (pre ++ c :: rest) (length pre))
  = Ok (tt, mkParser (pre ++ c :: rest) (length pre + 1)).
Proof.
  unfold scan, bind.
  destruct (try_scan_cases [c] (mkParser (pre ++ c :: rest) (length pre)))
    as [[_ ->] | [Hno _]]; cbn [text pointer] in *.
  - reflexivity.
  - exfalso. apply Hno. exists pre, rest. split; reflexivity.
Qed.

(** [scan_until] with a delimiter of one character: up to and with the
    first such character, or to the end of the text when there is none. *)
Lemma scan_until_char (pre body : str) (d : ascii) (post : str) :
  ~ In d body ->
  scan_until [d] (mkParser (pre ++ body ++ d :: post) (length pre))
  = Ok (body ++ [d],
        mkParser (pre ++ body ++ d :: post) (length pre + length body + 1)).
Proof.
  intros Hbody. set (txt := pre ++ body ++ d :: post).
  assert (first_occurrence txt (length pre) [d] (length pre + length body))
    as Hfirst.
  { split; [lia|]. split.
    - exists (pre ++ body), post. split.
      + unfold txt. rewrite <- app_assoc. reflexivity.
      + apply length_app.
    - intros q' Hq' Hocc. apply occurs_at_char in Hocc. unfold txt in Hocc.
      rewrite nth_error_app2 in Hocc by lia.
      rewrite nth_error_app1 in Hocc by lia.
      apply nth_error_In in Hocc. contradiction. }
  unfold scan_until, rounds. cbn [text pointer].
  destruct (scan_until_loop_spec [d] txt (S (length txt - length pre))
              (length pre) []) as [(q & Hq & ->) | (Hnone & _)].
  - unfold txt. rewrite length_app. lia.
  - lia.
  - rewrite (first_occurrence_unique _ _ _ _ _ Hq Hfirst).
    cbn [app length]. f_equal. f_equal.
    unfold slice, txt. rewrite skipn_app, skipn_all, Nat.sub_diag.
    cbn [skipn app].
    replace (length pre + length body + 1 - length pre)
      with (length body + 1) by lia.
    rewrite firstn_app, firstn_all2 by lia.
    replace (length body + 1 - length body) with 1 by lia. reflexivity.
  - exfalso. destruct Hfirst as (Hle & Hocc & _). exact (Hnone _ Hle Hocc).
Qed.

Lemma scan_until_char_missing (pre body : str) (d : ascii) :
  ~ In d body ->
  scan_until [d] (mkParser (pre ++ body) (length pre))
  = Ok (body, mkParser (pre ++ body) (length (pre ++ body))).
Proof.
  intros Hbody. set (txt := pre ++ body).
  assert (no_occurrence txt (length pre) [d]) as Hnone.
  { intros q Hq Hocc. apply occurs_at_char in Hocc. unfold txt in Hocc.
    rewrite nth_error_app2 in Hocc by lia.
    apply nth_error_In in Hocc. contradiction. }
  unfold scan_until, rounds. cbn [text pointer].
  destruct (scan_until_loop_spec [d] txt (S (length txt - length pre))
              (length pre) []) as [(q & (Hle & Hocc & _) & _) | (_ & ->)].
  - unfold txt. rewrite length_app. lia.
  - lia.
  - exfalso. exact (Hnone q Hle Hocc).
  - cbn [app]. f_equal. f_equal. unfold txt.
    rewrite skipn_app, skipn_all, Nat.sub_diag. reflexivity.
Qed.

(** The array levels at the cursor, up to a rest that does not start with a
    level. *)
Lemma scan_type_levels_spec (rest : str) :
  startswith rest ("[" : str) = false ->
  forall k fuel (pre identifier : str),
    k < fuel ->
    scan_type_levels fuel identifier
      (mkParser (pre ++ array_prefix k ++ rest) (length pre))
    = match rest with
      | [] => Raise IndexError
      | _ :: _ =>
          Ok (identifier ++ array_prefix k,
              mkParser (pre ++ array_prefix k ++ rest) (length pre + k))
      end.
Proof.
  intros Hrest. induction k as [|k IH]; intros fuel pre identifier Hfuel;
    (destruct fuel as [|fuel]; [lia|]); cbn [scan_type_levels];
    unfold bind at 1.
  - cbn [array_prefix repeat app]. destruct rest as [|c rest].
    + rewrite app_nil_r, next_at_end. reflexivity.
    + rewrite next_after.
      assert (equal c "["%char = false) as ->.
      { apply equal_false_iff. intros ->.
        assert (startswith ("["%char :: rest) ("[" : str) = true) as Ht
            by (apply startswith_iff; eexists; reflexivity).
        congruence. }
      unfold ret. rewrite app_nil_r, Nat.add_0_r. reflexivity.
  - unfold array_prefix. cbn [repeat app]. fold (array_prefix k).
    rewrite next_after, equal_refl. unfold bind at 1.
    change ("[" : str) with ["["%char]. rewrite scan_char_after.
    replace (pre ++ "["%char :: array_prefix k ++ rest)
      with ((pre ++ ["["%char]) ++ array_prefix k ++ rest)
      by (rewrite <- app_assoc; reflexivity).
    replace (length pre + 1) with (length (pre ++ ["["%char]))
      by (rewrite length_app; reflexivity).
    rewrite IH by lia. destruct rest; [reflexivity|].
    rewrite <- app_assoc, length_app. cbn [length app].
    replace (length pre + 1 + k) with (length pre + S k) by lia.
    reflexivity.
Qed.

(** The start of [scan_type]: the levels, then the character after them. *)
Lemma scan_type_after_levels (pre : str) (k : nat) (c : ascii) (rest : str) :
  c <> "["%char ->
  scan_type (mkParser (pre ++ array_prefix k ++ c :: rest) (length pre))
  = (if equal c "L"%char
     then s <- scan_until (";" : str) ;;
          ret (array_prefix k ++ s)
     else c' <- next ;;
          _ <- advance 1 ;;
          ret (array_prefix k ++ [c']))
      (mkParser ((pre ++ array_prefix k) ++ c :: rest)
                (length (pre ++ array_prefix k))).
Proof.
  intros Hc. unfold scan_type. unfold bind at 1.
  rewrite (scan_type_levels_spec (c :: rest)).
  - rewrite <- app_assoc, length_app.
    replace (length (array_prefix k)) with k
      by (unfold array_prefix; rewrite repeat_length; reflexivity).
    unfold bind at 1.
    replace (pre ++ array_prefix k ++ c :: rest)
      with ((pre ++ array_prefix k) ++ c :: rest)
      by (rewrite <- app_assoc; reflexivity).
    replace (length pre + k) with (length (pre ++ array_prefix k))
      by (rewrite length_app; unfold array_prefix;
          rewrite repeat_length; reflexivity).
    rewrite next_after. reflexivity.
  - unfold startswith. apply equal_false_iff. simpl. congruence.
  - unfold rounds. cbn [text pointer]. rewrite !length_app.
    unfold array_prefix. rewrite repeat_length. simpl. lia.
Qed.

Lemma array_prefix_length (k : nat) : length (array_prefix k) = k.
Proof. apply repeat_length. Qed.

(** [scan_type] on an object reference and on a single character. *)
Lemma scan_type_object (pre : str) (k : nat) (name post : str) :
  ~ In ";"%char name ->
  scan_type
    (mkParser (pre ++ (array_prefix k ++ object_descriptor name) ++ post)
              (length pre))
  = Ok (array_prefix k ++ object_descriptor name,
        mkParser (pre ++ (array_prefix k ++ object_descriptor name) ++ post)
                 (length pre
                  + length (array_prefix k ++ object_descriptor name))).
Proof.
  intros Hname. unfold object_descriptor.
  replace (pre ++ (array_prefix k ++ ("L" : str) ++ name ++ (";" : str))
               ++ post)
    with (pre ++ array_prefix k ++ "L"%char :: name ++ ";"%char :: post)
    by (repeat rewrite <- app_assoc; reflexivity).
  rewrite scan_type_after_levels by discriminate.
  rewrite equal_refl. unfold bind at 1.
  change (";" : str) with [";"%char].
  pose proof (scan_until_char (pre ++ array_prefix k) ("L"%char :: name)
                ";"%char post) as Huntil.
  cbn [app] in Huntil. rewrite Huntil.
  - unfold ret. repeat rewrite <- app_assoc.
    replace (length (pre ++ array_prefix k) + length ("L"%char :: name) + 1)
      with (length pre
            + length (array_prefix k ++ ("L" : str) ++ name ++ (";" : str)))
      by (rewrite !length_app; simpl; rewrite ?length_app; simpl; lia).
    reflexivity.
  - intros [E | Hin]; [discriminate E | exact (Hname Hin)].
Qed.

Lemma scan_type_character (pre : str) (k : nat) (c : ascii) (post : str) :
  c <> "["%char -> c <> "L"%char ->
  scan_type (mkParser (pre ++ (array_prefix k ++ [c]) ++ post) (length pre))
  = Ok (array_prefix k ++ [c],
        mkParser (pre ++ (array_prefix k ++ [c]) ++ post)
                 (length pre + length (array_prefix k ++ [c]))).
Proof.
  intros Hlevel Hobject.
  replace (pre ++ (array_prefix k ++ [c]) ++ post)
    with (pre ++ array_prefix k ++ c :: post)
    by (repeat rewrite <- app_assoc; reflexivity).
  rewrite scan_type_after_levels by exact Hlevel.
  rewrite (proj2 (equal_false_iff c "L"%char) Hobject).
  unfold bind at 1. rewrite next_after. unfold bind, advance, ret.
  cbn [text pointer]. repeat rewrite <- app_assoc.
  replace (length (pre ++ array_prefix k) + 1)
    with (length pre + length (array_prefix k ++ [c]))
    by (rewrite !length_app; simpl; lia).
  reflexivity.
Qed.

(** X6. [scan_type] reads one type token at the cursor: any number of
    array levels followed by an object reference [L<name>;] whose name has
    no [;], or by one character that is neither [[] nor [L]. It returns the
    token and leaves the cursor right after it. *)
Theorem scan_type_token (pre post : str) (k : nat) :
  (forall name,
      ~ In ";"%char name ->
      scan_type
        (mkParser (pre ++ (array_prefix k ++ object_descriptor name) ++ post)
                  (length pre))
      = Ok (array_prefix k ++ object_descriptor name,
            mkParser
              (pre ++ (array_prefix k ++ object_descriptor name) ++ post)
              (length pre
               + length (array_prefix k ++ object_descriptor name))))
  /\ (forall c,
         c <> "["%char -> c <> "L"%char ->
         scan_type
           (mkParser (pre ++ (array_prefix k ++ [c]) ++ post) (length pre))
         = Ok (array_prefix k ++ [c],
               mkParser (pre ++ (array_prefix k ++ [c]) ++ post)
                        (length pre + length (array_prefix k ++ [c])))).
Proof.
  split.
  - intros name. apply scan_type_object.
  - intros c. apply scan_type_character.
Qed.

(** X7. The edges of [scan_type]. An object reference that the text ends
    before closing is returned all the same, without its [;], with the
    cursor at the end of the text; and when the text ends after the array
    levels (or at the cursor), [next] raises [IndexError]. *)
Theorem scan_type_at_end_of_text (pre : str) (k : nat) :
  (forall name,
      ~ In ";"%char name ->
      scan_type
        (mkParser (pre ++ array_prefix k ++ "L"%char :: name) (length pre))
      = Ok (array_prefix k ++ "L"%char :: name,
            mkParser (pre ++ array_prefix k ++ "L"%char :: name)
                     (length (pre ++ array_prefix k ++ "L"%char :: name))))
  /\ scan_type (mkParser (pre ++ array_prefix k) (length pre))
     = Raise IndexError.
Proof.
  split.
  - intros name Hname.
    rewrite scan_type_after_levels by discriminate.
    rewrite equal_refl. unfold bind at 1.
    change (";" : str) with [";"%char].
    pose proof (scan_until_char_missing (pre ++ array_prefix k)
                  ("L"%char :: name) ";"%char) as Huntil.
    cbn [app] in Huntil. rewrite Huntil.
    + unfold ret. repeat rewrite <- app_assoc. reflexivity.
    + intros [E | Hin]; [discriminate E | exact (Hname Hin)].
  - unfold scan_type. unfold bind at 1.
    pose proof (scan_type_levels_spec [] eq_refl k
                  (rounds (mkParser (pre ++ array_prefix k) (length pre)))
                  pre []) as Hlv.
    rewrite app_nil_r in Hlv. rewrite Hlv; [reflexivity|].
    unfold rounds. cbn [text pointer].
    rewrite length_app, array_prefix_length. lia.
Qed.

(** ** Descriptors written by the codec and read by the scanner *)

Lemma primitive_code_character (code : str) :
  In code primitive_codes ->
  exists c, code = [c] /\ c <> "["%char /\ c <> "L"%char /\ c <> ")"%char.
Proof.
  unfold primitive_codes. simpl. intros Hin.
  repeat (destruct Hin as [<- | Hin];
          [eexists; split; [reflexivity | repeat split; discriminate]|]).
  destruct Hin.
Qed.

Lemma scan_type_descriptor (pre d post : str) :
  type_descriptor d ->
  scan_type (mkParser (pre ++ d ++ post) (length pre))
  = Ok (d, mkParser (pre ++ d ++ post) (length pre + length d)).
Proof.
  intros [k code Hcode | k name Hname].
  - destruct (primitive_code_character code Hcode) as (c & -> & H1 & H2 & _).
    apply scan_type_character; assumption.
  - apply scan_type_object. exact Hname.
Qed.

(** A type descriptor is not empty and does not start with [)]. *)
Lemma type_descriptor_head (d : str) :
  type_descriptor d -> exists c rest, d = c :: rest /\ c <> ")"%char.
Proof.
  intros [[|k] code Hcode | [|k] name Hname].
  - destruct (primitive_code_character code Hcode) as (c & -> & _ & _ & Hc).
    exists c, []. auto.
  - eexists _, _. split; [reflexivity | discriminate].
  - eexists _, _. split; [reflexivity | discriminate].
  - eexists _, _. split; [reflexivity | discriminate].
Qed.

Lemma no_semicolon_prefix (base suffix : str) :
  ~ In ";"%char (base ++ suffix) -> ~ In ";"%char base.
Proof. intros Hno Hin. apply Hno, in_or_app. left. exact Hin. Qed.

(** What [convert_type_to_descriptor] writes is a type descriptor, when
    neither the name nor the names in the remap have a [;]. *)
Lemma convert_type_to_descriptor_well_formed (name : str)
  (remap : dict str str) (desc : str) :
  ~ In ";"%char name ->
  (forall k v, In (k, v) remap -> ~ In ";"%char v) ->
  convert_type_to_descriptor name remap = Ok desc ->
  type_descriptor desc.
Proof.
  intros Hname Hremap.
  destruct (convert_type_to_descriptor_shape name remap) as
    (k & base & Hsplit & _ & _ & ->).
  intros Hdesc. apply Ok_injective in Hdesc. subst desc.
  destruct (dict_get FIELD_DESCRIPTOR_NAMES base) as [code|] eqn:Hcode.
  - apply type_descriptor_primitive.
    rewrite <- FIELD_DESCRIPTOR_NAMES_INVERSE_keys.
    apply dict_contains_keys. unfold dict_contains.
    rewrite (proj1 (primitive_code_of base code Hcode)). reflexivity.
  - apply (type_descriptor_object k (remapped remap base)).
    unfold remapped. destruct (dict_get remap base) as [v|] eqn:Hv.
    + apply dict_get_In in Hv. exact (Hremap base v Hv).
    + rewrite Hsplit in Hname. exact (no_semicolon_prefix _ _ Hname).
Qed.

(** X8. [scan_type] reads back what [convert_type_to_descriptor] writes:
    when neither the name nor the names in the remap have a [;], the
    descriptor of the name, placed anywhere in a text, is scanned as one
    token, and the cursor stops right after it. *)
Theorem scan_type_reads_descriptor (name : str) (remap : dict str str)
  (desc pre post : str) :
  ~ In ";"%char name ->
  (forall k v, In (k, v) remap -> ~ In ";"%char v) ->
  convert_type_to_descriptor name remap = Ok desc ->
  scan_type (mkParser (pre ++ desc ++ post) (length pre))
  = Ok (desc, mkParser (pre ++ desc ++ post) (length pre + length desc)).
Proof.
  intros Hname Hremap Hconv. apply scan_type_descriptor.
  exact (convert_type_to_descriptor_well_formed name remap desc
           Hname Hremap Hconv).
Qed.

Lemma scan_type_reads_descriptor_witness :
  scan_type
    (mkParser (("(" : str) ++ ("[Lc;" : str) ++ (")V" : str)) 1)
  = Ok (("[Lc;" : str),
        mkParser (("(" : str) ++ ("[Lc;" : str) ++ (")V" : str)) 5).
Proof.
  apply (scan_type_reads_descriptor ("a/Foo[]" : str)
           [("a/Foo" : str, "c" : str)] ("[Lc;" : str) ("(" : str)
           (")V" : str)).
  - simpl. intros H. repeat (destruct H as [H | H]; [discriminate H|]).
    exact H.
  - simpl. intros k v [[= _ <-] | []]. simpl. intros H.
    repeat (destruct H as [H | H]; [discriminate H|]). exact H.
  - reflexivity.
Defined.

(** ** Method descriptors *)

(** The scanner steps on a text given by what is before and after the
    cursor. *)
Lemma next_in (txt pre : str) (c : ascii) (rest : str) :
  txt = pre ++ c :: rest ->
  next (mkParser txt (length pre)) = Ok (c, mkParser txt (length pre)).
Proof. intros ->. apply next_after. Qed.

Lemma scan_char_in (txt pre : str) (c : ascii) (rest : str) :
  txt = pre ++ c :: rest ->
  scan [c] (mkParser txt (length pre))
  = Ok (tt, mkParser txt (length (pre ++ [c]))).
Proof. intros ->. rewrite length_app. apply scan_char_after. Qed.

Lemma scan_type_in (txt pre d post : str) :
  type_descriptor d -> txt = pre ++ d ++ post ->
  scan_type (mkParser txt (length pre))
  = Ok (d, mkParser txt (length (pre ++ d))).
Proof. intros Hd ->. rewrite length_app. apply scan_type_descriptor, Hd. Qed.

Lemma join_cons (d : str) (ds : list str) : join (d :: ds) = d ++ join ds.
Proof. reflexivity. Qed.

Lemma join_length (params : list str) :
  Forall type_descriptor params -> length params <= length (join params).
Proof.
  induction 1 as [|d ds Hd _ IH]; [reflexivity|].
  rewrite join_cons, length_app.
  destruct (type_descriptor_head d Hd) as (c & r & -> & _). simpl. lia.
Qed.

(** The loop over the parameters of [decode_java_method_descriptor], up to
    the closing parenthesis or the end of the text. *)
Lemma decode_params_in (txt rest : str) :
  rest = [] \/ (exists post, rest = ")"%char :: post) ->
  forall (params : list str) fuel (pre : str) (acc : list str),
    Forall type_descriptor params -> length params < fuel ->
    txt = pre ++ join params ++ rest ->
    decode_params fuel acc (mkParser txt (length pre))
    = match rest with
      | [] => Raise IndexError
      | _ :: _ =>
          Ok (acc ++ params, mkParser txt (length (pre ++ join params)))
      end.
Proof.
  intros Hrest. induction params as [|d ds IH];
    intros fuel pre acc Hall Hfuel Htxt;
    (destruct fuel as [|fuel]; [simpl in Hfuel; lia|]);
    cbn [decode_params]; unfold bind at 1.
  - cbn [join concat app] in *. rewrite !app_nil_r.
    destruct Hrest as [-> | [post ->]].
    + rewrite app_nil_r in Htxt. subst txt. rewrite next_at_end. reflexivity.
    + rewrite (next_in txt pre ")"%char post Htxt), equal_refl. reflexivity.
  - inversion Hall as [|d' ds' Hd Hds]; subst d' ds'.
    destruct (type_descriptor_head d Hd) as (c & r & Hdc & Hc).
    rewrite join_cons, <- app_assoc in Htxt.
    rewrite (next_in txt pre c (r ++ join ds ++ rest))
      by (rewrite Htxt, Hdc; reflexivity).
    rewrite (proj2 (equal_false_iff c ")"%char) Hc). cbn [negb].
    unfold bind at 1.
    rewrite (scan_type_in txt pre d (join ds ++ rest) Hd Htxt).
    rewrite (IH fuel (pre ++ d) (acc ++ [d]) Hds).
    + destruct rest; [reflexivity|].
      rewrite join_cons, <- !app_assoc. reflexivity.
    + simpl in Hfuel. lia.
    + rewrite Htxt, <- app_assoc. reflexivity.
Qed.

(** The scan of [decode_java_method_descriptor] on a method descriptor
    after [pre]. *)
Lemma decode_scan_in (txt pre : str) (params : list str) (rdesc : str) :
  Forall type_descriptor params -> type_descriptor rdesc ->
  txt = pre ++ method_descriptor params rdesc ->
  (_ <- scan ("(" : str) ;;
   params <- (fun p => decode_params (rounds p) [] p) ;;
   _ <- scan (")" : str) ;;
   ret_type <- scan_type ;;
   ret (ret_type, params)) (mkParser txt (length pre))
  = Ok ((rdesc, params), mkParser txt (length txt)).
Proof.
  intros Hparams Hret Htxt. unfold method_descriptor in Htxt.
  pose proof (join_length params Hparams) as Hlen.
  unfold bind at 1. change ("(" : str) with ["("%char].
  rewrite (scan_char_in txt pre "("%char (join params ++ ")"%char :: rdesc))
    by (rewrite Htxt; reflexivity).
  unfold bind at 1.
  rewrite (decode_params_in txt (")"%char :: rdesc))
    with (params := params) (pre := pre ++ ["("%char]) (acc := []).
  - unfold bind at 1. change (")" : str) with [")"%char].
    rewrite (scan_char_in txt ((pre ++ ["("%char]) ++ join params) ")"%char
               rdesc)
      by (rewrite Htxt; repeat rewrite <- app_assoc; reflexivity).
    unfold bind at 1.
    rewrite (scan_type_in txt
               (((pre ++ ["("%char]) ++ join params) ++ [")"%char]) rdesc []
               Hret)
      by (rewrite Htxt, app_nil_r; repeat rewrite <- app_assoc;
          reflexivity).
    unfold ret. f_equal. f_equal. f_equal. rewrite Htxt.
    repeat rewrite <- app_assoc. reflexivity.
  - right. eauto.
  - exact Hparams.
  - unfold rounds. cbn [text pointer]. rewrite Htxt.
    repeat rewrite length_app. simpl. repeat rewrite length_app. simpl.
    lia.
  - rewrite Htxt. repeat rewrite <- app_assoc. reflexivity.
Qed.

(** X9. [decode_java_method_descriptor] takes apart what [parse_official]
    puts together: on the method descriptor built from type descriptors for
    the parameters and for the return type it returns the return type and
    the list of the parameter descriptors, in order. *)
Theorem decode_java_method_descriptor_inverse (params : list str)
  (rdesc : str) :
  Forall type_descriptor params -> type_descriptor rdesc ->
  decode_java_method_descriptor (method_descriptor params rdesc)
  = Ok (rdesc, params).
Proof.
  intros Hparams Hret. unfold decode_java_method_descriptor.
  cbv zeta.
  change (mkParser (method_descriptor params rdesc) 0)
    with (mkParser (method_descriptor params rdesc) (length (@nil ascii))).
  rewrite (decode_scan_in (method_descriptor params rdesc) [] params rdesc
             Hparams Hret eq_refl).
  reflexivity.
Qed.

Lemma decode_java_method_descriptor_inverse_witness :
  decode_java_method_descriptor
    (method_descriptor [("I" : str); ("[Lc;" : str)]
                       ("Ljava/lang/String;" : str))
  = Ok (("Ljava/lang/String;" : str), [("I" : str); ("[Lc;" : str)]).
Proof.
  apply decode_java_method_descriptor_inverse.
  - repeat constructor.
    + apply (type_descriptor_primitive 0 ("I" : str)). simpl. tauto.
    + apply (type_descriptor_object 1 ("c" : str)). simpl.
      intros [H | []]. discriminate H.
  - apply (type_descriptor_object 0 ("java/lang/String" : str)). simpl.
    intros H. repeat (destruct H as [H | H]; [discriminate H|]). exact H.
Defined.

(** X10. [decode_java_method_descriptor] on what is no method descriptor:
    without the opening parenthesis [scan] raises [RuntimeError] through
    [error], and when the text ends before the closing parenthesis [next]
    raises [IndexError]. *)
Theorem decode_java_method_descriptor_errors :
  (forall desc,
      startswith desc ("(" : str) = false ->
      decode_java_method_descriptor desc = Raise RuntimeError)
  /\ (forall params,
         Forall type_descriptor params ->
         decode_java_method_descriptor (("(" : str) ++ join params)
         = Raise IndexError).
Proof.
  split.
  - intros desc Hstart. unfold decode_java_method_descriptor. cbv zeta.
    unfold bind at 1. unfold scan at 1. unfold bind at 1.
    destruct (try_scan_cases ("(" : str) (mkParser desc 0))
      as [[Hocc _] | [_ ->]]; [|reflexivity].
    exfalso. destruct Hocc as (pre & post & Htxt & Hlen).
    cbn [text pointer] in *. destruct pre; [|discriminate Hlen].
    assert (startswith desc ("(" : str) = true) as Ht
        by (apply startswith_iff; exists post; exact Htxt).
    congruence.
  - intros params Hparams. unfold decode_java_method_descriptor. cbv zeta.
    set (txt := ("(" : str) ++ join params).
    change (mkParser txt 0) with (mkParser txt (length (@nil ascii))).
    unfold bind at 1. change ("(" : str) with ["("%char].
    rewrite (scan_char_in txt [] "("%char (join params)) by reflexivity.
    unfold bind at 1.
    rewrite (decode_params_in txt [])
      with (params := params) (pre := [] ++ ["("%char]) (acc := []).
    + reflexivity.
    + left. reflexivity.
    + exact Hparams.
    + unfold rounds. cbn [text pointer]. unfold txt.
      pose proof (join_length params Hparams). simpl. lia.
    + unfold txt. rewrite app_nil_r. reflexivity.
Qed.

(** The loop over the parameters of [scan_java_method_signature]. *)
Lemma signature_params_in (txt post : str) :
  forall (params : list str) fuel (pre identifier : str) (n : nat),
    Forall type_descriptor params -> length params < fuel ->
    txt = pre ++ join params ++ ")"%char :: post ->
    signature_params fuel identifier n (mkParser txt (length pre))
    = Ok ((identifier ++ join params, n + length params),
          mkParser txt (length (pre ++ join params))).
Proof.
  induction params as [|d ds IH];
    intros fuel pre identifier n Hall Hfuel Htxt;
    (destruct fuel as [|fuel]; [simpl in Hfuel; lia|]);
    cbn [signature_params]; unfold bind at 1.
  - cbn [join concat app length] in *. rewrite !app_nil_r, Nat.add_0_r.
    rewrite (next_in txt pre ")"%char post Htxt), equal_refl. reflexivity.
  - inversion Hall as [|d' ds' Hd Hds]; subst d' ds'.
    destruct (type_descriptor_head d Hd) as (c & r & Hdc & Hc).
    rewrite join_cons, <- app_assoc in Htxt.
    rewrite (next_in txt pre c (r ++ join ds ++ ")"%char :: post))
      by (rewrite Htxt, Hdc; reflexivity).
    rewrite (proj2 (equal_false_iff c ")"%char) Hc). cbn [negb].
    unfold bind at 1.
    rewrite (scan_type_in txt pre d (join ds ++ ")"%char :: post) Hd Htxt).
    rewrite (IH fuel (pre ++ d) (identifier ++ d) (n + 1) Hds).
    + rewrite join_cons, <- !app_assoc. cbn [length].
      replace (n + 1 + length ds) with (n + S (length ds)) by lia.
      reflexivity.
    + simpl in Hfuel. lia.
    + rewrite Htxt, <- app_assoc. reflexivity.
Qed.

(** X11. [scan_java_method_signature] at a method descriptor built from
    type descriptors returns the descriptor as it stands in the text and
    the number of its parameters, and leaves the cursor right after the
    return type. *)
Theorem scan_java_method_signature_spec (pre post : str)
  (params : list str) (rdesc : str) :
  Forall type_descriptor params -> type_descriptor rdesc ->
  scan_java_method_signature
    (mkParser (pre ++ method_descriptor params rdesc ++ post) (length pre))
  = Ok ((method_descriptor params rdesc, length params),
        mkParser (pre ++ method_descriptor params rdesc ++ post)
                 (length pre + length (method_descriptor params rdesc))).
Proof.
  intros Hparams Hret.
  set (txt := pre ++ method_descriptor params rdesc ++ post).
  assert (txt = pre ++ ("("%char :: join params)
                    ++ ")"%char :: rdesc ++ post) as Htxt.
  { unfold txt, method_descriptor. repeat rewrite <- app_assoc.
    reflexivity. }
  pose proof (join_length params Hparams) as Hlen.
  unfold scan_java_method_signature.
  unfold bind at 1. change ("(" : str) with ["("%char].
  rewrite (scan_char_in txt pre "("%char
             (join params ++ ")"%char :: rdesc ++ post))
    by (rewrite Htxt; repeat rewrite <- app_assoc; reflexivity).
  unfold bind at 1.
  rewrite (signature_params_in txt (rdesc ++ post) params
             (rounds (mkParser txt (length (pre ++ ["("%char]))))
             (pre ++ ["("%char]) ["("%char] 0 Hparams).
  - unfold bind at 1. change (")" : str) with [")"%char].
    rewrite (scan_char_in txt ((pre ++ ["("%char]) ++ join params) ")"%char
               (rdesc ++ post))
      by (rewrite Htxt; repeat rewrite <- app_assoc; reflexivity).
    unfold bind at 1.
    rewrite (scan_type_in txt
               (((pre ++ ["("%char]) ++ join params) ++ [")"%char]) rdesc
               post Hret)
      by (rewrite Htxt; repeat rewrite <- app_assoc; reflexivity).
    unfold ret, method_descriptor. f_equal. f_equal.
    + f_equal. repeat rewrite <- app_assoc. reflexivity.
    + f_equal. repeat rewrite length_app. simpl.
      repeat rewrite length_app. simpl. lia.
  - unfold rounds. cbn [text pointer]. rewrite Htxt.
    repeat rewrite length_app. simpl. repeat rewrite length_app. simpl.
    lia.
  - rewrite Htxt. repeat rewrite <- app_assoc. reflexivity.
Qed.

Lemma scan_java_method_signature_spec_witness :
  scan_java_method_signature
    (mkParser (("m" : str)
               ++ method_descriptor [("I" : str); ("[Lc;" : str)]
                                    ("V" : str)
               ++ (" -> g" : str)) 1)
  = Ok ((("(I[Lc;)V" : str), 2),
        mkParser (("m" : str)
                  ++ method_descriptor [("I" : str); ("[Lc;" : str)]
                                       ("V" : str)
                  ++ (" -> g" : str)) 9).
Proof.
  apply (scan_java_method_signature_spec ("m" : str) (" -> g" : str)
           [("I" : str); ("[Lc;" : str)] ("V" : str)).
  - repeat constructor.
    + apply (type_descriptor_primitive 0 ("I" : str)). simpl. tauto.
    + apply (type_descriptor_object 1 ("c" : str)). simpl.
      intros [H | []]. discriminate H.
  - apply (type_descriptor_primitive 0 ("V" : str)). simpl. tauto.
Defined.

(** ** The cursor only moves forward *)

Lemma next_sound_inside (p : Parser) :
  inside p ->
  sound next p (fun _ p' => moves p p'
                            /\ (p' = p /\ pointer p < length (text p))).
Proof.
  intros Hin. unfold sound, next.
  destruct (nth_error (text p) (pointer p)) as [c|] eqn:Hc.
  - split; [discriminate|]. intros a p' [= _ <-].
    split; [exact (moves_refl p Hin)|]. split; [reflexivity|].
    apply nth_error_Some. congruence.
  - split; discriminate.
Qed.

Lemma advance_sound (p : Parser) :
  pointer p < length (text p) ->
  sound (advance 1) p
    (fun _ p' => moves p p' /\ pointer p' = pointer p + 1).
Proof.
  intros Hlt. split; [discriminate|]. intros u p' [= _ <-].
  unfold moves, inside. cbn [text pointer]. repeat split; lia.
Qed.

(** Before the end of the text and with a delimiter that is not empty,
    [scan_until] moves the cursor. *)
Lemma scan_until_progress (end_ : str) (p : Parser) :
  pointer p < length (text p) -> end_ <> [] ->
  sound (scan_until end_) p
    (fun _ p' => moves p p' /\ pointer p < pointer p').
Proof.
  intros Hlt Hend. unfold sound, scan_until, rounds.
  destruct p as [txt ptr]. cbn [text pointer] in *.
  assert (0 < length end_) as Hlen
      by (destruct end_; [congruence | simpl; lia]).
  destruct (scan_until_loop_spec end_ txt (S (length txt - ptr)) ptr [])
    as [(q & (Hq & Hocc & _) & ->) | (_ & ->)]; try lia.
  - split; [discriminate|]. intros a p' [= _ <-].
    apply occurs_at_in_text in Hocc. unfold moves, inside.
    cbn [text pointer]. repeat split; lia.
  - split; [discriminate|]. intros a p' [= _ <-].
    unfold moves, inside. cbn [text pointer]. repeat split; lia.
Qed.

Lemma scan_type_levels_sound :
  forall fuel (identifier : str) (p : Parser),
    inside p -> length (text p) - pointer p < fuel ->
    sound (scan_type_levels fuel identifier) p (fun _ p' => moves p p').
Proof.
  induction fuel as [|fuel IH]; intros identifier p Hin Hfuel; [lia|].
  cbn [scan_type_levels].
  eapply sound_bind; [apply next_sound_inside; exact Hin|].
  intros c p1 (Hmv1 & -> & Hlt). cbv beta.
  destruct (equal c "["%char).
  - eapply sound_bind; [apply scan_sound; exact Hin|].
    intros u p2 (Hmv2 & Hadv). simpl in Hadv. eapply sound_weaken.
    + apply IH; [exact (moves_inside _ _ Hmv2)|].
      destruct Hmv2 as (T2 & L2 & I2). rewrite T2. lia.
    + intros s p3 Hmv3. exact (moves_trans _ _ _ Hmv2 Hmv3).
  - apply sound_ret. exact Hmv1.
Qed.

Lemma scan_type_sound (p : Parser) :
  inside p ->
  sound scan_type p (fun _ p' => moves p p' /\ pointer p < pointer p').
Proof.
  intros Hin. unfold scan_type.
  eapply sound_bind.
  { apply scan_type_levels_sound; [exact Hin | unfold rounds; lia]. }
  intros identifier p1 Hmv1. cbv beta.
  eapply sound_bind;
    [apply next_sound_inside; exact (moves_inside _ _ Hmv1)|].
  intros c p2 (_ & -> & Hlt). cbv beta.
  destruct (equal c "L"%char).
  - eapply sound_bind;
      [apply (scan_until_progress (";" : str) p1 Hlt); discriminate|].
    intros s p3 (Hmv3 & Hlt3). apply sound_ret.
    split; [exact (moves_trans _ _ _ Hmv1 Hmv3)|].
    destruct Hmv1 as (_ & L1 & _). lia.
  - eapply sound_bind;
      [apply next_sound_inside; exact (moves_inside _ _ Hmv1)|].
    intros c' p3 (_ & -> & _). cbv beta.
    eapply sound_bind; [apply advance_sound; exact Hlt|].
    intros u p4 (Hmv4 & Hadv). apply sound_ret.
    split; [exact (moves_trans _ _ _ Hmv1 Hmv4)|].
    destruct Hmv1 as (_ & L1 & _). lia.
Qed.

Lemma signature_params_sound :
  forall fuel (identifier : str) (n : nat) (p : Parser),
    inside p -> length (text p) - pointer p < fuel ->
    sound (signature_params fuel identifier n) p (fun _ p' => moves p p').
Proof.
  induction fuel as [|fuel IH]; intros identifier n p Hin Hfuel; [lia|].
  cbn [signature_params].
  eapply sound_bind; [apply next_sound_inside; exact Hin|].
  intros c p1 (Hmv1 & -> & Hlt). cbv beta.
  destruct (negb (equal c ")"%char)).
  - eapply sound_bind; [apply scan_type_sound; exact Hin|].
    intros t p2 (Hmv2 & Hlt2). eapply sound_weaken.
    + apply IH; [exact (moves_inside _ _ Hmv2)|].
      destruct Hmv2 as (T2 & L2 & I2). rewrite T2. lia.
    + intros r p3 Hmv3. exact (moves_trans _ _ _ Hmv2 Hmv3).
  - apply sound_ret. exact Hmv1.
Qed.

Lemma decode_params_sound :
  forall fuel (params : list str) (p : Parser),
    inside p -> length (text p) - pointer p < fuel ->
    sound (decode_params fuel params) p (fun _ p' => moves p p').
Proof.
  induction fuel as [|fuel IH]; intros params p Hin Hfuel; [lia|].
  cbn [decode_params].
  eapply sound_bind; [apply next_sound_inside; exact Hin|].
  intros c p1 (Hmv1 & -> & Hlt). cbv beta.
  destruct (negb (equal c ")"%char)).
  - eapply sound_bind; [apply scan_type_sound; exact Hin|].
    intros t p2 (Hmv2 & Hlt2). eapply sound_weaken.
    + apply IH; [exact (moves_inside _ _ Hmv2)|].
      destruct Hmv2 as (T2 & L2 & I2). rewrite T2. lia.
    + intros r p3 Hmv3. exact (moves_trans _ _ _ Hmv2 Hmv3).
  - apply sound_ret. exact Hmv1.
Qed.

Lemma scan_java_method_signature_sound (p : Parser) :
  inside p ->
  sound scan_java_method_signature p (fun _ p' => moves p p').
Proof.
  intros Hin. pose proof (moves_refl p Hin) as Hmv.
  unfold scan_java_method_signature.
  scan_step scan_sound.
  eapply sound_bind.
  { apply signature_params_sound;
      [exact (moves_inside _ _ Hmv) | unfold rounds; lia]. }
  intros [identifier n] p2 Hmv2. cbv beta iota.
  pose proof (moves_trans _ _ _ Hmv Hmv2) as Hmv02.
  scan_step scan_sound.
  eapply sound_bind; [apply scan_type_sound; exact (moves_inside _ _ Hmv02)|].
  intros t p4 (Hmv4 & _). apply sound_ret.
  exact (moves_trans _ _ _ Hmv02 Hmv4).
Qed.

(** X12. From a cursor inside the text every method of the scanner returns
    or raises, none runs without end, and when it returns the text is the
    same and the cursor has not gone back nor left the text; after
    [scan_type] it is further on. *)
Theorem scanner_cursor_only_advances (p : Parser) :
  inside p ->
  (forall expected, sound (try_scan expected) p (fun _ p' => moves p p'))
  /\ (forall expected, sound (scan expected) p (fun _ p' => moves p p'))
  /\ (forall end_, sound (scan_until end_) p (fun _ p' => moves p p'))
  /\ (forall chars, sound (scan_identifier chars) p (fun _ p' => moves p p'))
  /\ sound scan_type p (fun _ p' => moves p p' /\ pointer p < pointer p')
  /\ sound scan_java_method_signature p (fun _ p' => moves p p').
Proof.
  intros Hin. split; [|split; [|split; [|split; [|split]]]].
  - intros expected. eapply sound_weaken; [apply try_scan_sound, Hin|].
    intros b q [Hmv _]. exact Hmv.
  - intros expected. eapply sound_weaken; [apply scan_sound, Hin|].
    intros u q [Hmv _]. exact Hmv.
  - intros end_. eapply sound_weaken; [apply scan_until_sound, Hin|].
    intros s q [Hmv _]. exact Hmv.
  - intros chars. eapply sound_weaken; [apply scan_identifier_sound, Hin|].
    intros r q [Hmv _]. exact Hmv.
  - apply scan_type_sound, Hin.
  - apply scan_java_method_signature_sound, Hin.
Qed.

Lemma scanner_cursor_only_advances_witness :
  sound scan_type (mkParser ("(I[Lc;)V" : str) 2)
    (fun _ p' => moves (mkParser ("(I[Lc;)V" : str) 2) p'
                 /\ 2 < pointer p').
Proof.
  refine (proj1 (proj2 (proj2 (proj2 (proj2
            (scanner_cursor_only_advances (mkParser ("(I[Lc;)V" : str) 2)
               _)))))).
  unfold inside. simpl. lia.
Defined.

(** ** What the scanner raises *)

Lemma raises_only_bind {A B} (E : exn -> Prop) (m : Scan A)
  (k : A -> Scan B) (p : Parser) :
  raises_only E m p ->
  (forall a p', m p = Ok (a, p') -> raises_only E (k a) p') ->
  raises_only E (bind m k) p.
Proof.
  intros Hm Hk e. unfold bind.
  destruct (m p) as [[a p'] | e' |] eqn:Hrun.
  - apply (Hk a p'). reflexivity.
  - intros [= <-]. apply Hm. exact Hrun.
  - discriminate.
Qed.

Lemma raises_only_ret {A} (E : exn -> Prop) (a : A) (p : Parser) :
  raises_only E (ret a) p.
Proof. intros e. discriminate. Qed.

Lemma raises_only_next (E : exn -> Prop) (p : Parser) :
  E IndexError -> raises_only E next p.
Proof.
  intros HE e. unfold next.
  destruct (nth_error (text p) (pointer p)); [discriminate|].
  intros [= <-]. exact HE.
Qed.

Lemma raises_only_scan (E : exn -> Prop) (expected : str) (p : Parser) :
  E RuntimeError -> raises_only E (scan expected) p.
Proof.
  intros HE e. unfold scan, bind.
  destruct (try_scan_cases expected p) as [[_ ->] | [_ ->]].
  - discriminate.
  - intros [= <-]. exact HE.
Qed.

(** [scan_until] raises nothing, from any cursor. *)
Lemma scan_until_loop_raises_nothing (end_ : str) :
  forall fuel (identifier : str) (p : Parser) e,
    scan_until_loop fuel end_ identifier p <> Raise e.
Proof.
  induction fuel as [|fuel IH]; intros identifier p e; [discriminate|].
  rewrite scan_until_loop_step.
  destruct (Nat.leb_spec (length (text p)) (pointer p)) as [Hend | Hin];
    [discriminate|].
  destruct (try_scan_cases end_ p) as [[_ ->] | [_ ->]]; [discriminate|].
  destruct (nth_error (text p) (pointer p)) eqn:Hc.
  - apply IH.
  - apply nth_error_None in Hc. lia.
Qed.

Lemma raises_only_scan_until (E : exn -> Prop) (end_ : str) (p : Parser) :
  raises_only E (scan_until end_) p.
Proof.
  intros e Hrun. exfalso.
  exact (scan_until_loop_raises_nothing end_ _ _ _ e Hrun).
Qed.

(** After [next] has returned [c], [scan] of [c] succeeds. *)
Lemma scan_after_next (c : ascii) (p p' : Parser) :
  next p = Ok (c, p') ->
  p' = p /\ scan [c] p = Ok (tt, mkParser (text p) (pointer p + 1)).
Proof.
  unfold next. destruct (nth_error (text p) (pointer p)) as [c0|] eqn:Hc;
    [|discriminate].
  intros [= -> <-]. split; [reflexivity|].
  apply nth_error_split in Hc as (pre & rest & Htxt & Hlen).
  destruct p as [txt ptr]. cbn [text pointer] in *. subst txt ptr.
  apply scan_char_after.
Qed.

Lemma raises_only_scan_type_levels :
  forall fuel (identifier : str) (p : Parser),
    raises_only (eq IndexError) (scan_type_levels fuel identifier) p.
Proof.
  induction fuel as [|fuel IH]; intros identifier p; [discriminate|].
  cbn [scan_type_levels]. apply raises_only_bind.
  - apply raises_only_next. reflexivity.
  - intros c p' Hnext. case_equal c "["%char; [|apply raises_only_ret].
    subst c. destruct (scan_after_next _ _ _ Hnext) as [-> Hscan].
    intros e. unfold bind at 1. change ("[" : str) with ["["%char].
    rewrite Hscan. apply IH.
Qed.

Lemma raises_only_scan_type (p : Parser) :
  raises_only (eq IndexError) scan_type p.
Proof.
  unfold scan_type. apply raises_only_bind.
  - apply raises_only_scan_type_levels.
  - intros identifier p1 _. apply raises_only_bind.
    + apply raises_only_next. reflexivity.
    + intros c p2 _. destruct (equal c "L"%char).
      * apply raises_only_bind; [apply raises_only_scan_until|].
        intros; apply raises_only_ret.
      * apply raises_only_bind; [apply raises_only_next; reflexivity|].
        intros c' p3 _. apply raises_only_bind; [discriminate|].
        intros; apply raises_only_ret.
Qed.

Lemma raises_only_weaken {A} (E E' : exn -> Prop) (m : Scan A)
  (p : Parser) :
  raises_only E m p -> (forall e, E e -> E' e) -> raises_only E' m p.
Proof. intros Hm Himp e Hrun. exact (Himp e (Hm e Hrun)). Qed.

Lemma raises_only_decode_params :
  forall fuel (params : list str) (p : Parser),
    raises_only (eq IndexError) (decode_params fuel params) p.
Proof.
  induction fuel as [|fuel IH]; intros params p; [discriminate|].
  cbn [decode_params]. apply raises_only_bind.
  - apply raises_only_next. reflexivity.
  - intros c p' _. destruct (negb (equal c ")"%char)).
    + apply raises_only_bind; [apply raises_only_scan_type|].
      intros t p2 _. apply IH.
    + apply raises_only_ret.
Qed.

(** X13. On every string [decode_java_method_descriptor] returns, or
    raises [RuntimeError] (a parenthesis is missing where [scan] expects
    it), or raises [IndexError] (the text ends where [next] reads); its
    loops never run without end. *)
Theorem decode_java_method_descriptor_outcomes (desc : str) :
  (exists r, decode_java_method_descriptor desc = Ok r)
  \/ decode_java_method_descriptor desc = Raise RuntimeError
  \/ decode_java_method_descriptor desc = Raise IndexError.
Proof.
  unfold decode_java_method_descriptor. cbv zeta.
  set (body := _ <- scan ("(" : str) ;;
               params <- (fun p => decode_params (rounds p) [] p) ;;
               _ <- scan (")" : str) ;;
               ret_type <- scan_type ;;
               ret (ret_type, params)).
  set (p := mkParser desc 0).
  assert (inside p) as Hin by (unfold inside, p; simpl; lia).
  assert (sound body p (fun _ _ => True)) as [Hdiv _].
  { pose proof (moves_refl p Hin) as Hmv. unfold body.
    scan_step scan_sound.
    eapply sound_bind.
    { apply decode_params_sound;
        [exact (moves_inside _ _ Hmv) | unfold rounds; lia]. }
    intros params p2 Hmv2. cbv beta.
    pose proof (moves_trans _ _ _ Hmv Hmv2) as Hmv02.
    scan_step scan_sound.
    eapply sound_bind;
      [apply scan_type_sound; exact (moves_inside _ _ Hmv02)|].
    intros t p4 _. apply sound_ret. exact I. }
  assert (raises_only (fun e => e = RuntimeError \/ e = IndexError) body p)
    as Hraise.
  { unfold body. apply raises_only_bind; [apply raises_only_scan; auto|].
    intros u p1 _. apply raises_only_bind.
    { eapply raises_only_weaken; [apply raises_only_decode_params|].
      intros e <-. auto. }
    intros params p2 _.
    apply raises_only_bind; [apply raises_only_scan; auto|].
    intros u' p3 _. apply raises_only_bind.
    { eapply raises_only_weaken; [apply raises_only_scan_type|].
      intros e <-. auto. }
    intros; apply raises_only_ret. }
  destruct (body p) as [[r p'] | e |] eqn:Hrun; cbn [rbind].
  - left. eauto.
  - right. destruct (Hraise e Hrun) as [-> | ->]; auto.
  - congruence.
Qed.

(** ** The text that is returned is the text that is consumed *)

Lemma firstn_plus {A} (m n : nat) (l : list A) :
  firstn (m + n) l = firstn m l ++ firstn n (skipn m l).
Proof.
  revert l. induction m as [|m IH]; intros [|x l]; simpl.
  - reflexivity.
  - reflexivity.
  - rewrite firstn_nil. reflexivity.
  - f_equal. apply IH.
Qed.

Lemma skipn_plus {A} (m n : nat) (l : list A) :
  skipn n (skipn m l) = skipn (m + n) l.
Proof.
  revert l. induction m as [|m IH]; intros [|x l]; simpl.
  - reflexivity.
  - reflexivity.
  - apply skipn_nil.
  - apply IH.
Qed.

Lemma slice_app (t : str) (a b c : nat) :
  a <= b -> b <= c -> slice t a b ++ slice t b c = slice t a c.
Proof.
  intros Hab Hbc. unfold slice.
  replace (c - a) with ((b - a) + (c - b)) by lia.
  rewrite firstn_plus, skipn_plus.
  replace (a + (b - a)) with b by lia. reflexivity.
Qed.

Lemma slice_to_end (t : str) (a : nat) :
  slice t a (length t) = skipn a t.
Proof.
  unfold slice. apply firstn_all2. rewrite length_skipn. lia.
Qed.

Lemma consumed_refl (p : Parser) : inside p -> consumed p [] p.
Proof.
  intros Hin. split; [exact (moves_refl p Hin)|].
  unfold slice. rewrite Nat.sub_diag. reflexivity.
Qed.

Lemma consumed_trans (p p1 p2 : Parser) (s1 s2 : str) :
  consumed p s1 p1 -> consumed p1 s2 p2 -> consumed p (s1 ++ s2) p2.
Proof.
  intros [Hmv1 ->] [Hmv2 ->]. split; [exact (moves_trans _ _ _ Hmv1 Hmv2)|].
  destruct Hmv1 as (T1 & L1 & _), Hmv2 as (_ & L2 & _).
  rewrite T1. apply slice_app; assumption.
Qed.

Lemma bind_Ok {A B} (m : Scan A) (k : A -> Scan B) (p p2 : Parser) (b : B) :
  bind m k p = Ok (b, p2) ->
  exists a p1, m p = Ok (a, p1) /\ k a p1 = Ok (b, p2).
Proof.
  unfold bind. destruct (m p) as [[a p1] | e |]; try discriminate. eauto.
Qed.

Lemma scan_until_consumed (end_ : str) (p : Parser) (s : str) (p' : Parser) :
  inside p -> scan_until end_ p = Ok (s, p') -> consumed p s p'.
Proof.
  intros Hin. unfold scan_until, rounds. destruct p as [txt ptr].
  unfold inside in Hin. cbn [text pointer] in *.
  destruct (scan_until_loop_spec end_ txt (S (length txt - ptr)) ptr [] Hin)
    as [(q & (Hq & Hocc & _) & ->) | (_ & ->)]; try lia;
    intros [= <- <-]; cbn [app].
  - apply occurs_at_in_text in Hocc. split; [|reflexivity].
    unfold moves, inside. cbn [text pointer]. repeat split; lia.
  - split; [|cbn [text pointer]; symmetry; apply slice_to_end].
    unfold moves, inside. cbn [text pointer]. repeat split; lia.
Qed.

Lemma scan_consumed (expected : str) (p : Parser) (u : unit) (p' : Parser) :
  scan expected p = Ok (u, p') -> consumed p expected p'.
Proof.
  unfold scan, bind.
  destruct (try_scan_cases expected p) as [[Hocc ->] | [_ ->]];
    [|discriminate].
  intros Hrun. injection Hrun as _ <-.
  apply occurs_at_slice in Hocc as [Hlen Hs].
  split; [|symmetry; exact Hs].
  unfold moves, inside. cbn [text pointer]. repeat split; lia.
Qed.

Lemma next_advance_consumed (p : Parser) (c : ascii) (p1 : Parser) :
  next p = Ok (c, p1) ->
  p1 = p /\ consumed p [c] (mkParser (text p) (pointer p + 1)).
Proof.
  intros Hnext. destruct (scan_after_next c p p1 Hnext) as [-> Hscan].
  split; [reflexivity|]. exact (scan_consumed [c] p tt _ Hscan).
Qed.

Lemma scan_type_levels_consumed :
  forall fuel (identifier : str) (p : Parser) (s : str) (p' : Parser),
    inside p -> scan_type_levels fuel identifier p = Ok (s, p') ->
    exists s', s = identifier ++ s' /\ consumed p s' p'.
Proof.
  induction fuel as [|fuel IH]; intros identifier p s p' Hin; [discriminate|].
  cbn [scan_type_levels]. intros Hrun.
  apply bind_Ok in Hrun as (c & p1 & Hnext & Hrun).
  destruct (next_advance_consumed p c p1 Hnext) as [-> Hc].
  case_equal c "["%char.
  - subst c. apply bind_Ok in Hrun as (u & p2 & Hscan & Hrun).
    apply scan_consumed in Hscan.
    apply IH in Hrun as (s' & -> & Hs'); [|exact (moves_inside _ _ (proj1 Hscan))].
    exists (("[" : str) ++ s'). split; [rewrite <- app_assoc; reflexivity|].
    exact (consumed_trans _ _ _ _ _ Hscan Hs').
  - injection Hrun as <- <-. exists []. split; [rewrite app_nil_r; reflexivity|].
    apply consumed_refl, Hin.
Qed.

Lemma scan_type_consumed (p : Parser) (s : str) (p' : Parser) :
  inside p -> scan_type p = Ok (s, p') -> consumed p s p'.
Proof.
  intros Hin Hrun. unfold scan_type in Hrun.
  apply bind_Ok in Hrun as (identifier & p1 & Hlv & Hrun).
  apply scan_type_levels_consumed in Hlv as (lv & -> & Hlv); [|exact Hin].
  cbn [app] in Hrun.
  pose proof (moves_inside _ _ (proj1 Hlv)) as Hin1.
  apply bind_Ok in Hrun as (c & p2 & Hnext & Hrun).
  destruct (next_advance_consumed p1 c p2 Hnext) as [-> Hc].
  destruct (equal c "L"%char).
  - apply bind_Ok in Hrun as (t & p3 & Huntil & Hrun).
    injection Hrun as <- <-.
    apply (scan_until_consumed _ _ _ _ Hin1) in Huntil.
    exact (consumed_trans _ _ _ _ _ Hlv Huntil).
  - apply bind_Ok in Hrun as (c' & p3 & Hnext' & Hrun).
    rewrite Hnext in Hnext'. injection Hnext' as <- <-.
    apply bind_Ok in Hrun as (u & p4 & Hadv & Hrun).
    injection Hadv as _ <-. injection Hrun as <- <-.
    exact (consumed_trans _ _ _ _ _ Hlv Hc).
Qed.

Lemma signature_params_consumed :
  forall fuel (identifier : str) (n : nat) (p : Parser) (s : str) (n' : nat)
         (p' : Parser),
    inside p -> signature_params fuel identifier n p = Ok ((s, n'), p') ->
    exists s', s = identifier ++ s' /\ consumed p s' p'.
Proof.
  induction fuel as [|fuel IH]; intros identifier n p s n' p' Hin;
    [discriminate|].
  cbn [signature_params]. intros Hrun.
  apply bind_Ok in Hrun as (c & p1 & Hnext & Hrun).
  destruct (next_advance_consumed p c p1 Hnext) as [-> _].
  destruct (negb (equal c ")"%char)).
  - apply bind_Ok in Hrun as (t & p2 & Htype & Hrun).
    apply (scan_type_consumed _ _ _ Hin) in Htype.
    apply IH in Hrun as (s' & -> & Hs');
      [|exact (moves_inside _ _ (proj1 Htype))].
    exists (t ++ s'). split; [rewrite <- app_assoc; reflexivity|].
    exact (consumed_trans _ _ _ _ _ Htype Hs').
  - injection Hrun as <- _ <-. exists [].
    split; [rewrite app_nil_r; reflexivity|]. apply consumed_refl, Hin.
Qed.

Lemma scan_java_method_signature_consumed (p : Parser) (s : str) (n : nat)
  (p' : Parser) :
  inside p -> scan_java_method_signature p = Ok ((s, n), p') ->
  consumed p s p'.
Proof.
  intros Hin Hrun. unfold scan_java_method_signature in Hrun.
  apply bind_Ok in Hrun as (u & p1 & Hopen & Hrun).
  apply scan_consumed in Hopen.
  apply bind_Ok in Hrun as ([identifier m] & p2 & Hparams & Hrun).
  apply signature_params_consumed in Hparams as (ps & -> & Hps);
    [|exact (moves_inside _ _ (proj1 Hopen))].
  apply bind_Ok in Hrun as (u' & p3 & Hclose & Hrun).
  apply scan_consumed in Hclose.
  apply bind_Ok in Hrun as (t & p4 & Htype & Hrun).
  injection Hrun as <- <- <-.
  pose proof (consumed_trans _ _ _ _ _ Hopen Hps) as H2.
  pose proof (consumed_trans _ _ _ _ _ H2 Hclose) as H3.
  apply scan_type_consumed in Htype; [|exact (moves_inside _ _ (proj1 H3))].
  pose proof (consumed_trans _ _ _ _ _ H3 Htype) as H4.
  repeat rewrite <- app_assoc in *. exact H4.
Qed.

(** X14. What the scanning methods return is what they consume: from a
    cursor inside the text, the string returned by [scan_until], by
    [scan_identifier] (when it returns one), by [scan_type] and by
    [scan_java_method_signature] is the text between the cursor before the
    call and the cursor after it. *)
Theorem returned_text_is_consumed_text (p : Parser) :
  inside p ->
  (forall end_ s p', scan_until end_ p = Ok (s, p') -> consumed p s p')
  /\ (forall chars s p',
         scan_identifier chars p = Ok (Some s, p') -> consumed p s p')
  /\ (forall s p', scan_type p = Ok (s, p') -> consumed p s p')
  /\ (forall s n p',
         scan_java_method_signature p = Ok ((s, n), p') -> consumed p s p').
Proof.
  intros Hin. split; [|split; [|split]].
  - intros end_ s p'. apply scan_until_consumed, Hin.
  - intros chars s p' Hrun. unfold scan_identifier, rounds in Hrun.
    destruct p as [txt ptr]. unfold inside in Hin. cbn [text pointer] in *.
    match type of Hrun with
    | scan_identifier_loop _ ?cs _ _ = _ =>
        destruct (scan_identifier_loop_spec cs txt (S (length txt - ptr))
                    ptr [] Hin)
        as [(q & c & Hq & Hc & _ & _ & E) | (_ & E)]; try lia
    end; rewrite E in Hrun; [|discriminate].
    injection Hrun as <- <-. split; [|reflexivity].
    assert (nth_error txt q <> None) as Hlt by congruence.
    apply nth_error_Some in Hlt.
    unfold moves, inside. cbn [text pointer]. repeat split; lia.
  - intros s p'. apply scan_type_consumed, Hin.
  - intros s n p'. apply scan_java_method_signature_consumed, Hin.
Qed.

Lemma returned_text_is_consumed_text_witness :
  consumed (mkParser ("(I[Lc;)V" : str) 2) ("[Lc;" : str)
           (mkParser ("(I[Lc;)V" : str) 6).
Proof.
  refine (proj1 (proj2 (proj2
            (returned_text_is_consumed_text
               (mkParser ("(I[Lc;)V" : str) 2) _))) _ _ _).
  - unfold inside. simpl. lia.
  - vm_compute. reflexivity.
Defined.

(** ** [parse_official] reads the whole document *)

Lemma eof_sound_at_end (p : Parser) :
  inside p ->
  sound eof p (fun b p' => p' = p
                           /\ (b = true -> pointer p = length (text p))
                           /\ (b = false -> pointer p < length (text p))).
Proof.
  intros Hin. apply sound_ret. split; [reflexivity|].
  unfold inside in Hin. split; intros Hb.
  - apply Nat.leb_le in Hb. lia.
  - apply Nat.leb_gt in Hb. exact Hb.
Qed.

(** The loop over the classes is left at the end of the text only. *)
Lemma classes_loop_ends :
  forall fuel (st : Staging) (p : Parser),
    inside p -> length (text p) - pointer p < fuel -> staged_ok st ->
    sound (classes_loop fuel st) p
      (fun _ p' => moves p p' /\ pointer p' = length (text p')).
Proof.
  induction fuel as [|fuel IH]; intros st p Hin Hfuel Hok; [lia|].
  cbn [classes_loop].
  eapply sound_bind; [apply eof_sound_at_end; exact Hin|].
  intros [|] p0 (-> & Hend & Hmore); cbv beta iota.
  - apply sound_ret. split; [exact (moves_refl p Hin) | auto].
  - eapply sound_bind; [apply class_block_sound; assumption|].
    intros st1 p1 (Hmv1 & Hlt & Hok1). eapply sound_weaken.
    + apply (IH st1 p1); [exact (moves_inside _ _ Hmv1) | | exact Hok1].
      destruct Hmv1 as (T1 & _ & _). rewrite T1. lia.
    + intros st2 p2 [Hmv2 Hat]. split; [|exact Hat].
      exact (moves_trans _ _ _ Hmv1 Hmv2).
Qed.

Lemma scan_official_ends (p : Parser) :
  inside p ->
  sound scan_official p
    (fun _ p' => text p' = text p /\ pointer p' = length (text p)).
Proof.
  intros Hin. unfold scan_official. eapply sound_bind.
  - unfold skip_comments. apply skip_comments_loop_sound;
      [exact Hin | unfold rounds; lia].
  - intros u p1 Hmv1. unfold classes_pass. eapply sound_weaken.
    + apply classes_loop_ends;
        [exact (moves_inside _ _ Hmv1) | unfold rounds; lia
        | exact staged_ok_new].
    + intros st p2 [Hmv2 Hat].
      destruct Hmv1 as (T1 & _ & _), Hmv2 as (T2 & _ & _).
      split; congruence.
Qed.

(** X15. When [parse_official] returns, its scan has read the document to
    its last character: the source map is resolved from what the first pass
    staged with the cursor at the end of the text, so that nothing after
    the classes is left unread. *)
Theorem parse_official_reads_all (text : str) (sm : SourceMap) :
  parse_official text = Ok sm ->
  exists st,
    scan_official (mkParser text 0) = Ok (st, mkParser text (length text))
    /\ resolve st = Ok sm.
Proof.
  unfold parse_official. cbv zeta.
  destruct (scan_official_ends (mkParser text 0)) as [_ Hend].
  { unfold inside. simpl. lia. }
  destruct (scan_official (mkParser text 0)) as [[st [txt ptr]] | e |];
    cbn [rbind]; try discriminate.
  intros Hres. destruct (Hend st _ eq_refl) as [Htxt Hptr].
  cbn [AbstractParser.text pointer] in *. subst txt ptr.
  exists st. split; [reflexivity | exact Hres].
Qed.

Lemma parse_official_reads_all_witness :
  parse_official larger_document = Ok larger_source_map
  /\ exists st,
      scan_official (mkParser larger_document 0)
      = Ok (st, mkParser larger_document (length larger_document))
      /\ resolve st = Ok larger_source_map.
Proof.
  assert (parse_official larger_document = Ok larger_source_map) as Hparse
      by (vm_compute; reflexivity).
  split; [exact Hparse|].
  exact (parse_official_reads_all larger_document larger_source_map Hparse).
Defined.

(** ** The diagnostics of [error] *)

Lemma split_not_empty (sep : ascii) (s : str) : split sep s <> [].
Proof.
  destruct s as [|c s]; simpl; [discriminate|].
  destruct (equal c sep); [discriminate|].
  destruct (split sep s); discriminate.
Qed.

(** The first piece of [split] is the text up to the first separator. *)
Lemma split_first (sep : ascii) (s : str) :
  exists c d,
    s = c ++ d /\ ~ In sep c /\ (d = [] \/ exists d', d = sep :: d')
    /\ nth_error (split sep s) 0 = Some c.
Proof.
  induction s as [|x s (c & d & Hs & Hc & Hd & Hnth)].
  - exists [], []. simpl. auto.
  - cbn [split]. case_equal x sep.
    + subst x. exists [], (sep :: s). simpl.
      repeat split; [intros [] | right; eauto].
    + exists (x :: c), d. destruct (split sep s) as [|h r]; [discriminate|].
      injection Hnth as ->. subst s. simpl.
      repeat split; auto. intros [Hx | Hin]; [congruence | auto].
Qed.

Lemma count_occ_none (l : str) (d : ascii) :
  ~ In d l -> count_occ ascii_dec l d = 0.
Proof. apply count_occ_not_In. Qed.

(** The piece of [split] whose index is the number of separators before
    position [n] is the stretch without separators around [n]. *)
Lemma cursor_line (sep : ascii) (t : str) :
  forall n,
    n <= length t ->
    exists a b c d,
      t = a ++ b ++ c ++ d /\ length (a ++ b) = n
      /\ ~ In sep b /\ ~ In sep c
      /\ (a = [] \/ exists a', a = a' ++ [sep])
      /\ (d = [] \/ exists d', d = sep :: d')
      /\ count_occ ascii_dec (firstn n t) sep = count_occ ascii_dec a sep
      /\ nth_error (split sep t) (count_occ ascii_dec a sep) = Some (b ++ c).
Proof.
  induction t as [|x t IH]; intros n Hn.
  - assert (n = 0) as -> by (simpl in Hn; lia).
    exists [], [], [], []. simpl. repeat split; auto.
  - destruct n as [|n].
    + destruct (split_first sep (x :: t)) as (c & d & Hs & Hc & Hd & Hnth).
      exists [], [], c, d. simpl. repeat split; auto.
    + destruct (IH n) as (a & b & c & d & Ht & Hlen & Hb & Hc & Ha & Hd
                          & Hcount & Hnth); [simpl in Hn; lia|].
      cbn [firstn split]. case_equal x sep.
      * subst x. exists (sep :: a), b, c, d.
        split; [simpl; congruence|]. split; [simpl; congruence|].
        repeat (split; [assumption|]). split.
        { right. destruct Ha as [-> | [a' ->]];
            [exists [] | exists (sep :: a')]; reflexivity. }
        split; [assumption|].
        cbn [count_occ]. destruct (ascii_dec sep sep); [|congruence].
        split; [congruence|]. exact Hnth.
      * assert (count_occ ascii_dec (x :: firstn n t) sep
                = count_occ ascii_dec (firstn n t) sep) as Hx.
        { cbn [count_occ]. destruct (ascii_dec x sep); congruence. }
        destruct (split sep t) as [|h r] eqn:Hsplit;
          [destruct (split_not_empty sep t Hsplit)|].
        destruct Ha as [-> | [a' ->]].
        -- exists [], (x :: b), c, d. cbn [app length] in *.
           split; [congruence|]. split; [congruence|].
           split; [intros [Hxs | Hin]; [congruence | auto]|].
           split; [assumption|]. split; [auto|]. split; [assumption|].
           split; [rewrite Hx; exact Hcount|].
           simpl in Hnth |- *. injection Hnth as ->. reflexivity.
        -- exists (x :: a' ++ [sep]), b, c, d. cbn [app length] in *.
           split; [congruence|]. split; [congruence|].
           repeat (split; [assumption|]).
           split; [right; exists (x :: a'); reflexivity|].
           split; [assumption|].
           assert (count_occ ascii_dec (x :: a' ++ [sep]) sep
                   = count_occ ascii_dec (a' ++ [sep]) sep) as Hxa.
           { cbn [count_occ]. destruct (ascii_dec x sep); congruence. }
           rewrite Hx, Hxa. split; [exact Hcount|].
           rewrite count_occ_app in *. cbn [count_occ] in *.
           destruct (ascii_dec sep sep); [|congruence].
           replace (count_occ ascii_dec a' sep + 1)
             with (S (count_occ ascii_dec a' sep)) in * by lia.
           exact Hnth.
Qed.

(** X16. [error] never fails on its own diagnostics: from a cursor inside
    the text the line number it computes is the index of a line of the
    text, so that the [RuntimeError] is what is raised. The line it prints
    is the line the cursor is in: the stretch without line feeds around the
    cursor, after the [line_num] line feeds before it. *)
Theorem error_diagnostics_line (p : Parser) :
  inside p ->
  exists around a b c d,
    error_diagnostics p = Ok (count_occ ascii_dec a LF, around, b ++ c)
    /\ text p = a ++ b ++ c ++ d
    /\ length (a ++ b) = pointer p
    /\ ~ In LF b /\ ~ In LF c
    /\ (a = [] \/ exists a', a = a' ++ [LF])
    /\ (d = [] \/ exists d', d = LF :: d').
Proof.
  intros Hin.
  destruct (cursor_line LF (text p) (pointer p) Hin)
    as (a & b & c & d & Ht & Hlen & Hb & Hc & Ha & Hd & Hcount & Hnth).
  eexists. exists a, b, c, d. split; [|auto 10].
  unfold error_diagnostics. cbv zeta. rewrite Hcount, Hnth. reflexivity.
Qed.

Lemma error_diagnostics_line_witness :
  exists around a b c d,
    error_diagnostics (mkParser (line "a.Foo -> c:" ++ line "    int f") 16)
    = Ok (count_occ ascii_dec a LF, around, b ++ c)
    /\ line "a.Foo -> c:" ++ line "    int f" = a ++ b ++ c ++ d
    /\ length (a ++ b) = 16
    /\ ~ In LF b /\ ~ In LF c
    /\ (a = [] \/ exists a', a = a' ++ [LF])
    /\ (d = [] \/ exists d', d = LF :: d').
Proof.
  apply (error_diagnostics_line
           (mkParser (line "a.Foo -> c:" ++ line "    int f") 16)).
  unfold inside. simpl. lia.
Defined.

Lemma slice_clamp (t : str) (a b : nat) :
  slice t a (Nat.min (length t) b) = slice t a b.
Proof.
  unfold slice. destruct (Nat.le_ge_cases b (length t)) as [Hb | Hb].
  - rewrite Nat.min_r by exact Hb. reflexivity.
  - rewrite Nat.min_l by exact Hb.
    rewrite !firstn_all2; [reflexivity | |]; rewrite length_skipn; lia.
Qed.

(** X17. The excerpt that [error] prints is [text[pointer - 3:pointer + 3]].
    From the fourth character on it is the three characters before the
    cursor and the three after it; within the first three characters the
    start index is negative and Python counts it from the end of the text,
    so that the excerpt of a text of six or more characters is empty. *)
Theorem error_diagnostics_excerpt (p : Parser) :
  inside p ->
  exists line_num around line,
    error_diagnostics p = Ok (line_num, around, line)
    /\ (3 <= pointer p ->
        around = slice (text p) (pointer p - 3) (pointer p + 3))
    /\ (pointer p < 3 ->
        around = slice (text p) (length (text p) + pointer p - 3)
                       (pointer p + 3))
    /\ (pointer p < 3 -> 6 <= length (text p) -> around = []).
Proof.
  intros Hin.
  destruct (cursor_line LF (text p) (pointer p) Hin)
    as (a & b & c & d & _ & _ & _ & _ & _ & _ & Hcount & Hnth).
  unfold error_diagnostics. cbv zeta. rewrite Hcount, Hnth.
  eexists _, _, _. split; [reflexivity|].
  unfold inside in Hin. unfold py_slice, py_index.
  assert ((Z.of_nat (pointer p) + 3 <? 0)%Z = false) as ->
      by (apply Z.ltb_ge; lia).
  replace (Z.to_nat (Z.of_nat (pointer p) + 3)) with (pointer p + 3) by lia.
  rewrite slice_clamp.
  destruct (Z.ltb_spec (Z.of_nat (pointer p) - 3) 0) as [Hneg | Hpos].
  - replace (Z.to_nat (Z.max 0 (Z.of_nat (length (text p))
                                + (Z.of_nat (pointer p) - 3))))
      with (length (text p) + pointer p - 3) by lia.
    split; [lia|]. split; [reflexivity|].
    intros _ Hlong. unfold slice.
    replace (pointer p + 3 - (length (text p) + pointer p - 3)) with 0
      by lia.
    reflexivity.
  - replace (Nat.min (length (text p)) (Z.to_nat (Z.of_nat (pointer p) - 3)))
      with (pointer p - 3) by lia.
    split; [reflexivity|]. split; lia.
Qed.

Lemma error_diagnostics_excerpt_witness :
  exists line_num around line,
    error_diagnostics (mkParser ("a.Foo => c" : str) 2)
    = Ok (line_num, around, line)
    /\ (3 <= 2 -> around = slice ("a.Foo => c" : str) (2 - 3) (2 + 3))
    /\ (2 < 3 ->
        around = slice ("a.Foo => c" : str)
                       (length ("a.Foo => c" : str) + 2 - 3) (2 + 3))
    /\ (2 < 3 -> 6 <= length ("a.Foo => c" : str) -> around = []).
Proof.
  apply (error_diagnostics_excerpt (mkParser ("a.Foo => c" : str) 2)).
  unfold inside. simpl. lia.
Defined.

(** ** The descriptors [parse_official] computes *)

Lemma convert_params_well_formed (params : list str)
  (remap : dict str str) :
  Forall (fun p => ~ In ";"%char p) params ->
  (forall k v, In (k, v) remap -> ~ In ";"%char v) ->
  exists descs,
    convert_params params remap = Ok descs
    /\ Forall type_descriptor descs
    /\ length descs = length params.
Proof.
  intros Hparams Hremap.
  induction Hparams as [|p ps Hp _ (ds & IH & Hds & Hlen)]; cbn [convert_params].
  - exists []. repeat split. constructor.
  - destruct (convert_type_to_descriptor_returns p remap) as [d Hd].
    rewrite Hd, IH. cbn [rbind]. exists (d :: ds). split; [reflexivity|].
    split; [|simpl; congruence].
    constructor; [|exact Hds].
    exact (convert_type_to_descriptor_well_formed p remap d Hp Hremap Hd).
Qed.

(** X18. The descriptor under which [parse_official] files a staged method
    can be taken apart again: when no type name of the member line and no
    name in the class table has a [;], the method is stored under
    [(class, name, descriptor)], where [decode_java_method_descriptor] of
    the descriptor returns the descriptor of the return type and one
    descriptor for each parameter of the member line, in order. *)
Theorem resolve_method_decodes (remap : dict str str)
  (methods : dict (str * str * str) str)
  (notch_class notch_method return_type : str) (params : list str)
  (mojmap_method : str) :
  ~ In ";"%char return_type ->
  Forall (fun p => ~ In ";"%char p) params ->
  (forall k v, In (k, v) remap -> ~ In ";"%char v) ->
  exists return_desc params_desc,
    convert_type_to_descriptor return_type remap = Ok return_desc
    /\ convert_params params remap = Ok params_desc
    /\ length params_desc = length params
    /\ resolve_method remap methods
         ((notch_class, notch_method, return_type, params), mojmap_method)
       = Ok (dict_set methods
               (notch_class, notch_method,
                method_descriptor params_desc return_desc)
               mojmap_method)
    /\ decode_java_method_descriptor
         (method_descriptor params_desc return_desc)
       = Ok (return_desc, params_desc).
Proof.
  intros Hret Hparams Hremap.
  destruct (convert_type_to_descriptor_returns return_type remap)
    as [rd Hrd].
  destruct (convert_params_well_formed params remap Hparams Hremap)
    as (pds & Hpds & Hwf & Hlen).
  pose proof (convert_type_to_descriptor_well_formed
                return_type remap rd Hret Hremap Hrd) as Hrwf.
  exists rd, pds. repeat (split; [assumption|]). split.
  - cbn [resolve_method]. rewrite Hrd, Hpds. reflexivity.
  - unfold decode_java_method_descriptor. cbv zeta.
    change (mkParser (method_descriptor pds rd) 0)
      with (mkParser (method_descriptor pds rd) (length (@nil ascii))).
    rewrite (decode_scan_in (method_descriptor pds rd) [] pds rd
               Hwf Hrwf eq_refl).
    reflexivity.
Qed.

Lemma resolve_method_decodes_witness :
  exists return_desc params_desc,
    convert_type_to_descriptor ("java/lang/String" : str)
      [("a/Foo" : str, "c" : str)] = Ok return_desc
    /\ convert_params [("int" : str); ("a/Foo[]" : str)]
         [("a/Foo" : str, "c" : str)] = Ok params_desc
    /\ length params_desc = length [("int" : str); ("a/Foo[]" : str)]
    /\ resolve_method [("a/Foo" : str, "c" : str)] []
         (("c" : str, "g" : str, "java/lang/String" : str,
           [("int" : str); ("a/Foo[]" : str)]), "get" : str)
       = Ok (dict_set []
               ("c" : str, "g" : str,
                method_descriptor params_desc return_desc)
               ("get" : str))
    /\ decode_java_method_descriptor
         (method_descriptor params_desc return_desc)
       = Ok (return_desc, params_desc).
Proof.
  apply resolve_method_decodes.
  - simpl. intros H. repeat (destruct H as [H | H]; [discriminate H|]).
    exact H.
  - repeat constructor; simpl; intros H;
      repeat (destruct H as [H | H]; [discriminate H|]); exact H.
  - simpl. intros k v [[= _ <-] | []]. simpl. intros H.
    repeat (destruct H as [H | H]; [discriminate H|]). exact H.
Defined.

(** ** The comment lines at the head of a document *)

Lemma scan_until_char_in (txt pre body : str) (d : ascii) (post : str) :
  ~ In d body -> txt = pre ++ body ++ d :: post ->
  scan_until [d] (mkParser txt (length pre))
  = Ok (body ++ [d], mkParser txt (length (pre ++ body ++ [d]))).
Proof.
  intros Hbody ->. rewrite (scan_until_char pre body d post Hbody).
  repeat rewrite length_app. simpl. rewrite Nat.add_assoc. reflexivity.
Qed.

Lemma try_scan_in (txt pre lit post : str) :
  txt = pre ++ lit ++ post ->
  try_scan lit (mkParser txt (length pre))
  = Ok (true, mkParser txt (length (pre ++ lit))).
Proof.
  intros Htxt.
  destruct (try_scan_cases lit (mkParser txt (length pre)))
    as [[_ ->] | [Hno _]]; cbn [text pointer] in *.
  - rewrite length_app. reflexivity.
  - exfalso. apply Hno. exists pre, post. auto.
Qed.

Lemma try_scan_not_in (txt pre lit rest : str) :
  txt = pre ++ rest -> startswith rest lit = false ->
  try_scan lit (mkParser txt (length pre))
  = Ok (false, mkParser txt (length pre)).
Proof.
  intros Htxt Hrest.
  destruct (try_scan_cases lit (mkParser txt (length pre)))
    as [[Hocc _] | [_ ->]]; cbn [text pointer] in *; [|reflexivity].
  exfalso. apply occurs_at_slice in Hocc as [_ Hs]. subst txt.
  unfold slice in Hs. rewrite skipn_app, skipn_all, Nat.sub_diag in Hs.
  cbn [skipn app] in Hs.
  replace (length pre + length lit - length pre) with (length lit) in Hs
    by lia.
  unfold startswith in Hrest. apply equal_false_iff in Hrest. congruence.
Qed.

Lemma header_cons (b : str) (bs : list str) :
  header (b :: bs) = comment_line b ++ header bs.
Proof. reflexivity. Qed.

(** The loop over the comment lines, up to a rest that does not start with
    [#]. *)
Lemma skip_comments_loop_in (txt rest : str) :
  startswith rest ("#" : str) = false ->
  forall (bodies : list str) fuel (pre : str),
    Forall (fun b => ~ In LF b) bodies -> length bodies < fuel ->
    txt = pre ++ header bodies ++ rest ->
    skip_comments_loop fuel (mkParser txt (length pre))
    = Ok (tt, mkParser txt (length (pre ++ header bodies))).
Proof.
  intros Hrest. induction bodies as [|b bs IH];
    intros fuel pre Hall Hfuel Htxt;
    (destruct fuel as [|fuel]; [simpl in Hfuel; lia|]);
    cbn [skip_comments_loop]; unfold bind at 1.
  - cbn [header map concat app] in *. rewrite app_nil_r.
    rewrite (try_scan_not_in txt pre ("#" : str) rest Htxt Hrest).
    reflexivity.
  - inversion Hall as [|b' bs' Hb Hbs]; subst b' bs'.
    rewrite header_cons in *. unfold comment_line in Htxt.
    rewrite (try_scan_in txt pre ("#" : str)
               (b ++ LF :: header bs ++ rest))
      by (rewrite Htxt; repeat rewrite <- app_assoc; reflexivity).
    unfold bind at 1.
    rewrite (scan_until_char_in txt (pre ++ ("#" : str)) b LF
               (header bs ++ rest) Hb)
      by (rewrite Htxt; repeat rewrite <- app_assoc; reflexivity).
    rewrite (IH fuel ((pre ++ ("#" : str)) ++ b ++ [LF]) Hbs).
    + unfold comment_line. repeat rewrite <- app_assoc. reflexivity.
    + simpl in Hfuel. lia.
    + rewrite Htxt. repeat rewrite <- app_assoc. reflexivity.
Qed.

Lemma header_length (bodies : list str) :
  length bodies <= length (header bodies).
Proof.
  induction bodies as [|b bs IH]; [reflexivity|].
  rewrite header_cons, length_app. unfold comment_line. simpl. lia.
Qed.

(** X19. The comment lines at the head of a document are skipped: on a
    text that starts with lines [#...] and goes on with something that does
    not start with [#], [skip_comments] leaves the cursor at the first
    character after the comment lines. A document of comment lines only,
    the empty document too, gives the empty source map. *)
Theorem skip_comments_header (bodies : list str) (rest : str) :
  Forall (fun b => ~ In LF b) bodies ->
  startswith rest ("#" : str) = false ->
  skip_comments (mkParser (header bodies ++ rest) 0)
  = Ok (tt, mkParser (header bodies ++ rest) (length (header bodies)))
  /\ parse_official (header bodies) = Ok SourceMap_new.
Proof.
  intros Hbodies Hrest.
  assert (forall rest',
             startswith rest' ("#" : str) = false ->
             skip_comments (mkParser (header bodies ++ rest') 0)
             = Ok (tt, mkParser (header bodies ++ rest')
                                (length (header bodies)))) as Hskip.
  { intros rest' Hrest'. unfold skip_comments.
    change (mkParser (header bodies ++ rest') 0)
      with (mkParser (header bodies ++ rest') (length (@nil ascii))).
    rewrite (skip_comments_loop_in (header bodies ++ rest') rest' Hrest'
               bodies _ [] Hbodies).
    - reflexivity.
    - unfold rounds. cbn [text pointer]. pose proof (header_length bodies).
      rewrite length_app. simpl. lia.
    - reflexivity. }
  split; [exact (Hskip rest Hrest)|].
  unfold parse_official, scan_official. cbv zeta. unfold bind at 1.
  pose proof (Hskip [] eq_refl) as Hs. rewrite app_nil_r in Hs. rewrite Hs.
  unfold classes_pass, rounds. cbn [text pointer].
  rewrite Nat.sub_diag. cbn [classes_loop]. unfold bind, eof.
  cbn [text pointer]. rewrite Nat.leb_refl. reflexivity.
Qed.

Lemma skip_comments_header_witness :
  skip_comments
    (mkParser (header [("# licence" : str); ("" : str)]
               ++ line "a.Foo -> c:") 0)
  = Ok (tt, mkParser (header [("# licence" : str); ("" : str)]
                      ++ line "a.Foo -> c:")
                     (length (header [("# licence" : str); ("" : str)])))
  /\ parse_official (header [("# licence" : str); ("" : str)])
     = Ok SourceMap_new.
Proof.
  apply skip_comments_header.
  - repeat constructor; simpl; intros H;
      repeat (destruct H as [H | H]; [discriminate H|]); exact H.
  - reflexivity.
Defined.

(** * The method lines of a document and the methods of its source map *)

(** ** The logged scan is the scan *)

Lemma member_line_log_erase (notch_class : str) (st : Staging) (p : Parser) :
  member_line notch_class st p = drop_log (member_line_log notch_class st) p.
Proof.
  unfold member_line, member_line_log, member_tokens, drop_log, file_member,
    method_parts, lift_result, bind, ret, raise.
  destruct (next p) as [[c p1] | |]; try reflexivity.
  destruct (char_in c NUMERIC_CHARS).
  - destruct (scan_until (":" : str) p1) as [[s1 q1] | |]; try reflexivity.
    destruct (scan_until (":" : str) q1) as [[s2 q2] | |]; try reflexivity.
    destruct (scan_name q2) as [[member_type p2] | |]; try reflexivity.
    destruct (scan (" " : str) p2) as [[u1 p3] | |]; try reflexivity.
    destruct (scan_name p3) as [[mojmap_member p4] | |]; try reflexivity.
    destruct (scan (" -> " : str) p4) as [[u2 p5] | |]; try reflexivity.
    destruct (scan_name p5) as [[notch_member p6] | |]; try reflexivity.
    destruct (scan [LF] p6) as [[u3 p7] | |]; try reflexivity.
    cbn [fst snd]. destruct (endswith mojmap_member (")" : str));
      [|reflexivity].
    destruct (split "(" mojmap_member) as [|a [|b [|? ?]]]; try reflexivity.
    destruct (negb (equal notch_member ("<clinit>" : str))); reflexivity.
  - destruct (scan_name p1) as [[member_type p2] | |]; try reflexivity.
    destruct (scan (" " : str) p2) as [[u1 p3] | |]; try reflexivity.
    destruct (scan_name p3) as [[mojmap_member p4] | |]; try reflexivity.
    destruct (scan (" -> " : str) p4) as [[u2 p5] | |]; try reflexivity.
    destruct (scan_name p5) as [[notch_member p6] | |]; try reflexivity.
    destruct (scan [LF] p6) as [[u3 p7] | |]; try reflexivity.
    cbn [fst snd]. destruct (endswith mojmap_member (")" : str));
      [|reflexivity].
    destruct (split "(" mojmap_member) as [|a [|b [|? ?]]]; try reflexivity.
    destruct (negb (equal notch_member ("<clinit>" : str))); reflexivity.
Qed.

Lemma members_loop_log_erase (notch_class : str) :
  forall fuel (st : Staging) (log : list MemberLine) (p : Parser),
    members_loop fuel notch_class st p
    = drop_log (members_loop_log fuel notch_class st log) p.
Proof.
  induction fuel as [|fuel IH]; intros st log p; [reflexivity|].
  cbn [members_loop members_loop_log]. unfold drop_log, bind.
  destruct (try_scan ("    " : str) p) as [[[|] p1] | |]; try reflexivity.
  rewrite member_line_log_erase. unfold drop_log.
  destruct (member_line_log notch_class st p1) as [[[st1 l] p2] | |];
    try reflexivity.
  cbn [fst snd]. rewrite (IH st1 (log ++ [l]) p2). reflexivity.
Qed.

Lemma class_block_log_erase (st : Staging) (log : list MemberLine)
  (p : Parser) :
  class_block st p = drop_log (class_block_log st log) p.
Proof.
  unfold class_block, class_block_log, drop_log, bind.
  destruct (scan_name p) as [[mojmap_class p1] | |]; try reflexivity.
  destruct (scan (" -> " : str) p1) as [[u1 p2] | |]; try reflexivity.
  destruct (scan_name p2) as [[notch_class p3] | |]; try reflexivity.
  destruct (scan ((":" : str) ++ [LF]) p3) as [[u2 p4] | |];
    try reflexivity.
  unfold members, members_log.
  rewrite (members_loop_log_erase notch_class (rounds p4) _ log p4).
  reflexivity.
Qed.

Lemma classes_loop_log_erase :
  forall fuel (st : Staging) (log : list MemberLine) (p : Parser),
    classes_loop fuel st p = drop_log (classes_loop_log fuel st log) p.
Proof.
  induction fuel as [|fuel IH]; intros st log p; [reflexivity|].
  cbn [classes_loop classes_loop_log]. unfold drop_log, bind, eof.
  destruct (length (text p) <=? pointer p); [reflexivity|].
  rewrite (class_block_log_erase st log p). unfold drop_log.
  destruct (class_block_log st log p) as [[[st1 log1] p1] | |];
    try reflexivity.
  cbn [fst snd]. rewrite (IH st1 log1 p1). reflexivity.
Qed.

Lemma scan_official_log_erase (p : Parser) :
  scan_official p = drop_log scan_official_log p.
Proof.
  unfold scan_official, scan_official_log, drop_log, bind.
  destruct (skip_comments p) as [[u p1] | |]; try reflexivity.
  unfold classes_pass.
  rewrite (classes_loop_log_erase (rounds p1) _ [] p1). reflexivity.
Qed.

(** ** What a member line stages *)

Lemma file_member_stages (notch_class : str) (st st' : Staging)
  (member_type mojmap_member notch_member : str) :
  file_member notch_class st (member_type, mojmap_member, notch_member)
  = Ok st' ->
  forall l,
  l = mkMemberLine notch_class member_type mojmap_member notch_member ->
  methods (sources st') = methods (sources st)
  /\ (forall key, In key (dict_keys (temp_methods st)) ->
                  In key (dict_keys (temp_methods st')))
  /\ (endswith mojmap_member (")" : str) = true -> notch_member <> clinit ->
      exists mojmap_method params,
        method_parts mojmap_member = Some (mojmap_method, params)
        /\ In (staged_key l params) (dict_keys (temp_methods st')))
  /\ (forall key,
         In key (dict_keys (temp_methods st')) ->
         In key (dict_keys (temp_methods st))
         \/ (endswith mojmap_member (")" : str) = true
             /\ notch_member <> clinit
             /\ exists mojmap_method params,
                 method_parts mojmap_member = Some (mojmap_method, params)
                 /\ key = staged_key l params)).
Proof.
  unfold file_member. intros Hfile l ->. unfold staged_key.
  cbn [line_class line_type line_name line_notch].
  destruct (endswith mojmap_member (")" : str)) eqn:Hend.
  - destruct (method_parts mojmap_member) as [[mojmap_method params]|]
      eqn:Hparts; [|discriminate].
    case_equal notch_member ("<clinit>" : str); cbn [negb] in Hfile;
      injection Hfile as <-.
    + (* a static initializer: nothing is staged *)
      split; [reflexivity|]. split; [auto|]. split; [|auto].
      intros _ Hne. exfalso. apply Hne. exact E.
    + split; [reflexivity|]. cbn [set_temp_method temp_methods sources].
      split; [|split].
      * intros key Hin. apply dict_set_keys. right. exact Hin.
      * intros _ _. exists mojmap_method, params. split; [reflexivity|].
        apply dict_set_keys. left. reflexivity.
      * intros key Hin. apply dict_set_keys in Hin as [-> | Hin]; [|auto].
        right. split; [reflexivity|]. split; [exact E|].
        exists mojmap_method, params. split; reflexivity.
  - injection Hfile as <-. cbn [set_field temp_methods sources methods].
    split; [reflexivity|]. split; [auto|]. split; [discriminate | auto].
Qed.

Lemma staged_from_file_member (notch_class : str) (st st' : Staging)
  (tokens : str * str * str) (log : list MemberLine) :
  staged_from st log ->
  file_member notch_class st tokens = Ok st' ->
  staged_from st'
    (log ++ [mkMemberLine notch_class (fst (fst tokens)) (snd (fst tokens))
                          (snd tokens)]).
Proof.
  destruct tokens as [[member_type mojmap_member] notch_member].
  intros (Hmethods & Hforward & Hbackward) Hfile. cbn [fst snd].
  destruct (file_member_stages _ _ _ _ _ _ Hfile _ eq_refl)
    as (Hm & Hkeep & Hnew & Hfrom).
  split; [congruence|]. split.
  - intros l Hin Hend Hne. apply in_app_or in Hin as [Hin | [<- | []]].
    + destruct (Hforward l Hin Hend Hne) as (name & ps & Hparts & Hkey).
      exists name, ps. split; [exact Hparts | exact (Hkeep _ Hkey)].
    + exact (Hnew Hend Hne).
  - intros key Hin. destruct (Hfrom key Hin)
      as [Hold | (Hend & Hne & name & ps & Hparts & ->)].
    + destruct (Hbackward key Hold)
        as (l & name & ps & Hl & Hend & Hne & Hparts & ->).
      exists l, name, ps. repeat split; auto. apply in_or_app. auto.
    + eexists _, name, ps. split; [apply in_or_app; right; left; reflexivity|].
      repeat split; auto.
Qed.

Lemma staged_from_set_class (st : Staging) (log : list MemberLine)
  (notch_class mojmap_class : str) :
  staged_from st log ->
  staged_from (set_class st notch_class mojmap_class) log.
Proof. intros H. exact H. Qed.

Lemma lift_result_Ok {A} (m : result A) (p p' : Parser) (a : A) :
  lift_result m p = Ok (a, p') -> m = Ok a.
Proof. unfold lift_result. destruct m; congruence. Qed.

Lemma member_line_log_staged (notch_class : str) (st st' : Staging)
  (l : MemberLine) (log : list MemberLine) (p p' : Parser) :
  member_line_log notch_class st p = Ok ((st', l), p') ->
  staged_from st log -> staged_from st' (log ++ [l]).
Proof.
  unfold member_line_log. intros Hrun Hinv.
  apply bind_Ok in Hrun as (tokens & p1 & _ & Hrun).
  apply bind_Ok in Hrun as (st1 & p2 & Hfile & Hrun).
  apply lift_result_Ok in Hfile. injection Hrun as <- <- _.
  exact (staged_from_file_member _ _ _ _ _ Hinv Hfile).
Qed.

Lemma members_loop_log_staged (notch_class : str) :
  forall fuel (st : Staging) (log : list MemberLine) (p : Parser)
         (st' : Staging) (log' : list MemberLine) (p' : Parser),
    members_loop_log fuel notch_class st log p = Ok ((st', log'), p') ->
    staged_from st log -> staged_from st' log'.
Proof.
  induction fuel as [|fuel IH]; intros st log p st' log' p' Hrun Hinv;
    [discriminate|].
  cbn [members_loop_log] in Hrun.
  apply bind_Ok in Hrun as ([|] & p1 & _ & Hrun).
  - apply bind_Ok in Hrun as ([st1 l] & p2 & Hline & Hrun).
    cbn [fst snd] in Hrun.
    exact (IH _ _ _ _ _ _ Hrun (member_line_log_staged _ _ _ _ _ _ _ Hline Hinv)).
  - injection Hrun as <- <- _. exact Hinv.
Qed.

Lemma class_block_log_staged (st : Staging) (log : list MemberLine)
  (p : Parser) (st' : Staging) (log' : list MemberLine) (p' : Parser) :
  class_block_log st log p = Ok ((st', log'), p') ->
  staged_from st log -> staged_from st' log'.
Proof.
  unfold class_block_log. intros Hrun Hinv.
  apply bind_Ok in Hrun as (mojmap_class & p1 & _ & Hrun).
  apply bind_Ok in Hrun as (u1 & p2 & _ & Hrun).
  apply bind_Ok in Hrun as (notch_class & p3 & _ & Hrun).
  apply bind_Ok in Hrun as (u2 & p4 & _ & Hrun).
  unfold members_log in Hrun.
  exact (members_loop_log_staged _ _ _ _ _ _ _ _ Hrun
           (staged_from_set_class _ _ _ _ Hinv)).
Qed.

Lemma classes_loop_log_staged :
  forall fuel (st : Staging) (log : list MemberLine) (p : Parser)
         (st' : Staging) (log' : list MemberLine) (p' : Parser),
    classes_loop_log fuel st log p = Ok ((st', log'), p') ->
    staged_from st log -> staged_from st' log'.
Proof.
  induction fuel as [|fuel IH]; intros st log p st' log' p' Hrun Hinv;
    [discriminate|].
  cbn [classes_loop_log] in Hrun.
  apply bind_Ok in Hrun as ([|] & p1 & _ & Hrun).
  - injection Hrun as <- <- _. exact Hinv.
  - apply bind_Ok in Hrun as ([st1 log1] & p2 & Hblock & Hrun).
    cbn [fst snd] in Hrun.
    exact (IH _ _ _ _ _ _ Hrun (class_block_log_staged _ _ _ _ _ _ Hblock Hinv)).
Qed.

Lemma scan_official_log_staged (p : Parser) (st : Staging)
  (log : list MemberLine) (p' : Parser) :
  scan_official_log p = Ok ((st, log), p') -> staged_from st log.
Proof.
  unfold scan_official_log. intros Hrun.
  apply bind_Ok in Hrun as (u & p1 & _ & Hrun).
  apply (classes_loop_log_staged _ _ _ _ _ _ _ Hrun).
  split; [reflexivity|]. split.
  - intros l [].
  - intros key [].
Qed.

(** ** What the second pass resolves *)

(** Every staged method is filed under its class, its obfuscated name and
    the descriptor of its types, and no key is lost on the way. *)
Lemma resolve_methods_files (remap : dict str str) :
  forall (items : list (TempKey * str))
         (methods methods' : dict (str * str * str) str),
    resolve_methods remap items methods = Ok methods' ->
    (forall key, In key (dict_keys methods) -> In key (dict_keys methods'))
    /\ forall c m t ps,
        In (c, m, t, ps) (dict_keys items) ->
        exists return_desc params_desc,
          convert_type_to_descriptor t remap = Ok return_desc
          /\ convert_params ps remap = Ok params_desc
          /\ In (c, m, method_descriptor params_desc return_desc)
                (dict_keys methods').
Proof.
  induction items as [|[[[[c0 m0] t0] ps0] v0] items IH];
    intros methods methods' Hrun.
  - injection Hrun as <-. split; [auto | intros c m t ps []].
  - cbn [resolve_methods resolve_method] in Hrun.
    destruct (convert_type_to_descriptor t0 remap) as [rd | |] eqn:Hrd;
      try discriminate.
    destruct (convert_params ps0 remap) as [pds | |] eqn:Hpds;
      try discriminate.
    cbn [rbind] in Hrun. apply IH in Hrun as [Hkeep Hfiled]. split.
    + intros key Hin. apply Hkeep, dict_set_keys. right. exact Hin.
    + intros c m t ps [[= -> -> -> ->] | Hin].
      * exists rd, pds. repeat (split; [assumption|]).
        apply Hkeep, dict_set_keys. left. reflexivity.
      * exact (Hfiled c m t ps Hin).
Qed.

(** C6. For every text on which [parse_official] returns, the methods of
    the result are those of the method lines of the document whose
    obfuscated name is not [<clinit>]. No key of the methods has the
    obfuscated name [<clinit>]. The scan that led to the result has read the
    member lines of the log, in order, and the result is resolved from what
    it staged; every line of the log whose readable name ends in [)] and
    whose obfuscated name is not [<clinit>] ([<init>] too) has an entry in
    the methods, under its class, its obfuscated name and the descriptor of
    its parameter and return types with the class table of the result; and
    every key of the methods comes from such a line, so that a line with the
    obfuscated name [<clinit>] contributes none. *)
Theorem parse_official_method_lines (text : str) (sm : SourceMap) :
  parse_official text = Ok sm ->
  (forall c m d, In (c, m, d) (dict_keys (methods sm)) -> m <> clinit)
  /\ exists st log p',
      scan_official_log (mkParser text 0) = Ok ((st, log), p')
      /\ resolve st = Ok sm
      /\ (forall l,
             In l log -> endswith (line_name l) (")" : str) = true ->
             line_notch l <> clinit ->
             exists mojmap_method params return_desc params_desc,
               method_parts (line_name l) = Some (mojmap_method, params)
               /\ convert_type_to_descriptor (line_type l)
                    (mojmap_to_notch (classes sm)) = Ok return_desc
               /\ convert_params params (mojmap_to_notch (classes sm))
                  = Ok params_desc
               /\ In (line_class l, line_notch l,
                      method_descriptor params_desc return_desc)
                     (dict_keys (methods sm)))
      /\ (forall c m d,
             In (c, m, d) (dict_keys (methods sm)) ->
             exists l,
               In l log /\ line_class l = c /\ line_notch l = m
               /\ endswith (line_name l) (")" : str) = true
               /\ line_notch l <> clinit).
Proof.
  unfold parse_official. cbv zeta. intros Hparse.
  pose proof (scan_official_log_erase (mkParser text 0)) as Herase.
  unfold drop_log in Herase.
  destruct (scan_official (mkParser text 0)) as [[st p'] | e |] eqn:Hscan;
    cbn [rbind] in Hparse; try discriminate.
  destruct (scan_official_log (mkParser text 0))
    as [[[st0 log] p0] | e |] eqn:Hlog; try discriminate.
  injection Herase as <- <-.
  destruct (scan_official_log_staged _ _ _ _ Hlog)
    as (Hnone & Hforward & Hbackward).
  pose proof Hparse as Hres. unfold resolve in Hres. cbv zeta in Hres.
  fold (mojmap_to_notch (classes (sources st))) in Hres.
  destruct (resolve_methods_keys (mojmap_to_notch (classes (sources st)))
              (temp_methods st) (methods (sources st)))
    as (methods' & Hrun & Hkeys).
  rewrite Hrun in Hres. cbn [rbind] in Hres. injection Hres as <-.
  destruct (resolve_methods_files _ _ _ _ Hrun) as [_ Hfiled].
  cbn [classes methods].
  assert (forall c m d,
             In (c, m, d) (dict_keys methods') ->
             exists l,
               In l log /\ line_class l = c /\ line_notch l = m
               /\ endswith (line_name l) (")" : str) = true
               /\ line_notch l <> clinit) as Hfrom.
  { intros c m d Hin. destruct (Hkeys c m d Hin) as [Hold | (t & ps & Hst)].
    - rewrite Hnone in Hold. destruct Hold.
    - destruct (Hbackward _ Hst)
        as (l & name & ps' & Hl & Hend & Hne & _ & Hkey).
      unfold staged_key in Hkey. injection Hkey as -> -> _ _.
      exists l. auto. }
  split.
  - intros c m d Hin. destruct (Hfrom c m d Hin) as (l & _ & _ & <- & _ & Hne).
    exact Hne.
  - exists st, log, p'. split; [reflexivity|]. split; [exact Hparse|].
    split; [|exact Hfrom].
    intros l Hl Hend Hne.
    destruct (Hforward l Hl Hend Hne) as (name & ps & Hparts & Hkey).
    destruct (Hfiled _ _ _ _ Hkey) as (rd & pds & Hrd & Hpds & Hin).
    exists name, ps, rd, pds. auto.
Qed.

Lemma parse_official_method_lines_witness :
  parse_official larger_document = Ok larger_source_map
  /\ (forall c m d,
         In (c, m, d) (dict_keys (methods larger_source_map)) -> m <> clinit)
  /\ exists st log p',
      scan_official_log (mkParser larger_document 0) = Ok ((st, log), p')
      /\ resolve st = Ok larger_source_map
      /\ (forall l,
             In l log -> endswith (line_name l) (")" : str) = true ->
             line_notch l <> clinit ->
             exists mojmap_method params return_desc params_desc,
               method_parts (line_name l) = Some (mojmap_method, params)
               /\ convert_type_to_descriptor (line_type l)
                    (mojmap_to_notch (classes larger_source_map))
                  = Ok return_desc
               /\ convert_params params
                    (mojmap_to_notch (classes larger_source_map))
                  = Ok params_desc
               /\ In (line_class l, line_notch l,
                      method_descriptor params_desc return_desc)
                     (dict_keys (methods larger_source_map)))
      /\ (forall c m d,
             In (c, m, d) (dict_keys (methods larger_source_map)) ->
             exists l,
               In l log /\ line_class l = c /\ line_notch l = m
               /\ endswith (line_name l) (")" : str) = true
               /\ line_notch l <> clinit).
Proof.
  assert (parse_official larger_document = Ok larger_source_map) as Hparse
      by (vm_compute; reflexivity).
  split; [exact Hparse|].
  exact (parse_official_method_lines larger_document larger_source_map
           Hparse).
Defined.

(** The log of the larger document: its four member lines, the static
    initializer among them, of which the two other method lines are in the
    methods of the result. *)
Example scan_official_log_larger_document :
  exists st p',
    scan_official_log (mkParser larger_document 0)
    = Ok ((st,
           [ mkMemberLine ("c" : str) ("java/lang/String" : str)
                          ("get(int,a/Foo[])" : str) ("g" : str);
             mkMemberLine ("c" : str) ("void" : str) ("<init>()" : str)
                          ("<init>" : str);
             mkMemberLine ("c" : str) ("void" : str) ("<clinit>()" : str)
                          ("<clinit>" : str);
             mkMemberLine ("c" : str) ("int" : str) ("count" : str)
                          ("n" : str) ]), p').
Proof. eexists _, _. vm_compute. reflexivity. Qed.
